(** * Per-user scheduler and delivery splitter of the Telegram bot

    A shallow embedding of [src/app/core/bot.py] (class [TelegramBot]):
    the message splitter [_send_long_message] and the per-user scheduling
    done by [handle_message], [handle_document] and [_process_messages].

    Python [str] values are sequences of Unicode code points; a text is a
    list of code points, [len] counts them, and Python [int] is [Z]. *)

From Stdlib Require Import ZArith List Bool Lia String Ascii DecimalString.
From stdpp Require Import gmap strings list.

Open Scope Z_scope.

(** ** Python strings *)

Module PyStr.

Definition char := N.
Definition str := list char.

(** A string literal of the source, as code points. *)
Definition lit (s : string) : str :=
  List.map N_of_ascii (list_ascii_of_string s).

Definition len (s : str) : Z := Z.of_nat (length s).

(** Truth value of a [str]: the empty string is false. *)
Definition truthy (s : str) : bool :=
  match s with [] => false | _ :: _ => true end.

Definition newline : char := 10%N.

(** The separator ["\n\n"]. *)
Definition blank_line : str := [newline; newline].

Definition is_newline (c : char) : bool := N.eqb c newline.

(** [c.isspace()] for one code point, the test used by [str.strip()]:
    the code points of bidirectional type WS, B or S, or of category Zs. *)
Definition isspace (c : char) : bool :=
  ((9 <=? c) && (c <=? 13) || (28 <=? c) && (c <=? 32)
   || (c =? 133) || (c =? 160) || (c =? 5760)
   || (8192 <=? c) && (c <=? 8202)
   || (c =? 8232) || (c =? 8233) || (c =? 8239) || (c =? 8287)
   || (c =? 12288))%N.

Fixpoint lstrip (s : str) : str :=
  match s with
  | [] => []
  | c :: r => if isspace c then lstrip r else s
  end.

(** [s.rstrip()]: a character stays when a character that is not
    whitespace follows it or when it is not whitespace itself. *)
Fixpoint rstrip (s : str) : str :=
  match s with
  | [] => []
  | c :: r =>
      match rstrip r with
      | [] => if isspace c then [] else [c]
      | r' => c :: r'
      end
  end.

(** [s.strip()] *)
Definition strip (s : str) : str := rstrip (lstrip s).

(** [sep.join(l)] *)
Fixpoint join (sep : str) (l : list str) : str :=
  match l with
  | [] => []
  | [p] => p
  | p :: r => p ++ sep ++ join sep r
  end.

(** Puts [c] in front of the first piece. *)
Definition cons_first (c : char) (l : list str) : list str :=
  match l with
  | [] => [[c]]
  | p :: r => (c :: p) :: r
  end.

(** [text.split("\n\n")]: the text is scanned from the left, every
    occurrence of two newlines that does not overlap the previous one ends
    a piece; the result has one piece more than there are separators. *)
Fixpoint split_blank_line (text : str) : list str :=
  match text with
  | [] => [[]]
  | c :: r =>
      match r with
      | c' :: r' =>
          if is_newline c && is_newline c'
          then [] :: split_blank_line r'
          else cons_first c (split_blank_line r)
      | [] => [[c]]
      end
  end.

(** [str(n)] for an [int], as in an f-string field. *)
Definition str_of_int (n : Z) : str :=
  lit (NilZero.string_of_int (Z.to_int n)).

(** [s[i:j]] with the indices clamped the way Python clamps them. *)
Definition clamp_index (s : str) (k : Z) : Z :=
  if k <? 0 then Z.max 0 (k + len s) else Z.min k (len s).

Definition slice (s : str) (i j : Z) : str :=
  let i' := clamp_index s i in
  let j' := clamp_index s j in
  take (Z.to_nat (j' - i')) (drop (Z.to_nat i') s).

(** [range(0, stop, step)]; a zero step raises [ValueError] ([None]). *)
Definition range0 (stop step : Z) : option (list Z) :=
  if step =? 0 then None
  else
    let n := if step >? 0 then (stop + step - 1) / step
             else (- stop - step - 1) / (- step) in
    Some (List.map (fun k => Z.of_nat k * step) (seq 0 (Z.to_nat n))).

(** [needle in s] *)
Fixpoint starts_with (needle s : str) : bool :=
  match needle, s with
  | [], _ => true
  | _ :: _, [] => false
  | a :: n', b :: s' => N.eqb a b && starts_with n' s'
  end.

Fixpoint contains (needle s : str) : bool :=
  starts_with needle s ||
  match s with
  | [] => false
  | _ :: r => contains needle r
  end.

End PyStr.

Import PyStr.

(** ** The paragraph split (lines 123 to 145) *)

Module Splitter.

(** One iteration of [for paragraph in paragraphs], on the pair
    [(parts, current_part)]. *)
Definition split_step (max_length : Z) (st : list str * str) (paragraph : str)
  : list str * str :=
  let '(parts, current_part) := st in
  if len current_part + len paragraph + 2 >? max_length then
    (if truthy current_part then parts ++ [strip current_part] else parts,
     paragraph)
  else
    (parts,
     (if truthy current_part then current_part ++ blank_line else current_part)
       ++ paragraph).

(** The tail of the loop: ["Add the last part if not empty"]. *)
Definition flush (st : list str * str) : list str :=
  let '(parts, current_part) := st in
  if truthy current_part then parts ++ [strip current_part] else parts.

(** The value of [parts] at line 147. *)
Definition split_parts (text : str) (max_length : Z) : list str :=
  flush (fold_left (split_step max_length) (split_blank_line text) ([], [])).

(** [f"Part {i}/{total_parts}:\n\n"] *)
Definition header (i total_parts : Z) : str :=
  lit "Part " ++ str_of_int i ++ lit "/" ++ str_of_int total_parts
    ++ lit ":" ++ blank_line.

(** The value of [message] in iteration [i] (lines 150 to 154). *)
Definition part_message (total_parts i : Z) (part : str) : str :=
  if total_parts >? 1 then header i total_parts ++ part else part.

(** [[message[i:i + max_length] for i in range(0, len(message), max_length)]] *)
Definition subparts_of (message : str) (max_length : Z) : option (list str) :=
  match range0 (len message) max_length with
  | None => None
  | Some starts =>
      Some (List.map (fun i => slice message i (i + max_length)) starts)
  end.

End Splitter.

Import Splitter.

(** ** Sending (lines 116 to 121 and 147 to 169) *)

(** What a call of [send_message] can raise.  [BadRequest] is
    [telegram.error.BadRequest]; [OtherException] stands for every other
    subclass of [Exception], the [ValueError] of [range] with a zero step
    included.  The argument is [str(e)]. *)
Inductive exn :=
| BadRequest (text : str)
| OtherException (text : str).

Definition str_of_exn (e : exn) : str :=
  match e with BadRequest t => t | OtherException t => t end.

(** [isinstance(e, BadRequest) and "Message is too long" in str(e)] *)
Definition is_too_long (e : exn) : bool :=
  match e with
  | BadRequest t => contains (lit "Message is too long") t
  | OtherException _ => false
  end.

(** One call of [self.app.bot.send_message]: the text and what it raised. *)
Record attempt := { a_text : str; a_raised : option exn }.

(** One iteration of the sending loop: the part number [i], the send of
    [message], the line printed by the handler, and the sends of the
    subparts when the handler splits further. *)
Record part_run := {
  p_index : Z;
  p_send : attempt;
  p_printed : option str;
  p_subparts : list attempt
}.

(** A finished call: the send of the short path or the iterations of the
    sending loop, and the exception that left the call. *)
Inductive sent :=
| Direct (a : attempt)
| InParts (runs : list part_run).

Record delivery (T : Type) := {
  d_sent : sent;
  d_raised : option exn;
  d_transport : T
}.
Arguments d_sent {T} _.
Arguments d_raised {T} _.
Arguments d_transport {T} _.

(** Every [send_message] call of a delivery, in the order of the calls. *)
Definition attempts_of_run (r : part_run) : list attempt :=
  p_send r :: p_subparts r.

Definition attempts_of (s : sent) : list attempt :=
  match s with
  | Direct a => [a]
  | InParts runs => concat (List.map attempts_of_run runs)
  end.

(** The lines written to standard output. *)
Definition printed_of (s : sent) : list str :=
  match s with
  | Direct _ => []
  | InParts runs =>
      concat (List.map (fun r => match p_printed r with
                                 | Some l => [l] | None => [] end) runs)
  end.

Section Delivery.

(** The transport: a state and the effect of one [send_message] call on it.
    [asyncio.sleep] touches neither the transport nor the control flow and is
    left out. *)
Context {T : Type}.
Variable send_message : T -> str -> option exn * T.

(** [for subpart in subparts: await send_message(subpart)] inside the
    handler: an exception raised here leaves the call. *)
Fixpoint send_subparts (t : T) (subparts : list str)
  : list attempt * option exn * T :=
  match subparts with
  | [] => ([], None, t)
  | subpart :: rest =>
      let '(r, t1) := send_message t subpart in
      match r with
      | None =>
          let '(l, e, t2) := send_subparts t1 rest in
          ({| a_text := subpart; a_raised := None |} :: l, e, t2)
      | Some e => ([{| a_text := subpart; a_raised := Some e |}], Some e, t1)
      end
  end.

(** [f"Error sending message part {i}: {str(e)}"] *)
Definition error_line (i : Z) (e : exn) : str :=
  lit "Error sending message part " ++ str_of_int i ++ lit ": "
    ++ str_of_exn e.

(** [for i, part in enumerate(parts, 1)], from part number [i] on. *)
Fixpoint send_parts (max_length total_parts : Z) (t : T) (i : Z)
  (parts : list str) : list part_run * option exn * T :=
  match parts with
  | [] => ([], None, t)
  | part :: rest =>
      let message := part_message total_parts i part in
      let '(r, t1) := send_message t message in
      let next t' run :=
        let '(runs, e, t'') := send_parts max_length total_parts t' (i + 1) rest in
        (run :: runs, e, t'') in
      match r with
      | None =>
          next t1 {| p_index := i;
                     p_send := {| a_text := message; a_raised := None |};
                     p_printed := None; p_subparts := [] |}
      | Some e =>
          let run subs :=
            {| p_index := i;
               p_send := {| a_text := message; a_raised := Some e |};
               p_printed := Some (error_line i e); p_subparts := subs |} in
          if is_too_long e then
            match subparts_of message max_length with
            | None =>
                ([run []],
                 Some (OtherException (lit "range() arg 3 must not be zero")),
                 t1)
            | Some subparts =>
                let '(subs, e', t2) := send_subparts t1 subparts in
                match e' with
                | Some x => ([run subs], Some x, t2)
                | None => next t2 (run subs)
                end
            end
          else next t1 (run [])
      end
  end.

(** [TelegramBot._send_long_message(chat_id, text, max_length)] *)
Definition _send_long_message (t : T) (text : str) (max_length : Z)
  : delivery T :=
  if len text <=? max_length then
    let '(r, t1) := send_message t text in
    {| d_sent := Direct {| a_text := text; a_raised := r |};
       d_raised := r; d_transport := t1 |}
  else
    let parts := split_parts text max_length in
    let total_parts := Z.of_nat (length parts) in
    let '(runs, e, t1) := send_parts max_length total_parts t 1 parts in
    {| d_sent := InParts runs; d_raised := e; d_transport := t1 |}.

(** The body of the [try] of [_process_messages] once
    [process_message_queue] has returned [response] (the argument [None] is
    Python's [None]); [max_length] keeps its default.  The result [None]
    means that [_send_long_message] is not called: nothing is sent. *)
Definition deliver_response (t : T) (response : option str)
  : option (delivery T) :=
  match response with
  | Some text =>
      if truthy text then Some (_send_long_message t text 4000) else None
  | None => None
  end.

End Delivery.

(** A transport with the hard limit the bot runs against: a text of more
    than 4096 code points is refused with the too-long [BadRequest], an empty
    one with another [BadRequest]; the state is the list of texts delivered. *)
Definition telegram_send (delivered : list str) (text : str)
  : option exn * list str :=
  if len text >? 4096 then
    (Some (BadRequest (lit "Message is too long")), delivered)
  else if truthy text then (None, delivered ++ [text])
  else (Some (BadRequest (lit "Message text is empty")), delivered).

(** A transport whose every send fails with a network error. *)
Definition offline_send (n : nat) (text : str) : option exn * nat :=
  (Some (OtherException (lit "Timed out")), S n).

(** ** The per-user scheduler (lines 71 to 74 and 83 to 114) *)

Module Scheduler.

(** Modelled from the spec: the Queue Store behind [db.add_message] and
    [message_handler.db.message_queue.count_documents], whose code is not
    part of [bot.py].  It keeps one record per inbound message with the
    fields user_id, text and is_processed (the timestamp plays no role
    here); a new record is unprocessed. *)
Record queued_message := {
  qm_user_id : string;
  qm_text : str;
  qm_is_processed : bool
}.

(** Where a task running [_process_messages] stands: created by
    [asyncio.create_task] and not yet started, suspended in
    [await process_message_queue], suspended inside
    [await _send_long_message], or finished. *)
Inductive phase := Created | Processing | Sending | Done.

Definition is_done (p : phase) : bool :=
  match p with Done => true | _ => false end.

(** The operations on [processing_users], on the queue and on the event
    loop, recorded in the order in which the code performs them. *)
Inductive effect :=
| AddMessage (user_id : string)
| Discard (user_id : string)
| CountDocuments (user_id : string) (pending : Z)
| Add (user_id : string)
| CreateTask (user_id : string).

Record state := {
  processing_users : gset string;
  message_queue : list queued_message;
  tasks : list (string * phase);
  effects : list effect
}.

(** The bot after [__init__]: nobody in flight, no task, a queue [q]. *)
Definition initial (q : list queued_message) : state :=
  {| processing_users := ∅; message_queue := q; tasks := []; effects := [] |}.

(** [db.add_message(user_id, message_text)] *)
Definition add_message (user_id : string) (text : str) (s : state) : state :=
  {| processing_users := processing_users s;
     message_queue :=
       message_queue s ++
       [{| qm_user_id := user_id; qm_text := text; qm_is_processed := false |}];
     tasks := tasks s;
     effects := effects s ++ [AddMessage user_id] |}.

Definition unprocessed_of (user_id : string) (m : queued_message) : bool :=
  bool_decide (qm_user_id m = user_id) && negb (qm_is_processed m).

(** [count_documents({"user_id": user_id, "is_processed": False})] *)
Definition pending_of (user_id : string) (q : list queued_message) : Z :=
  Z.of_nat (length (List.filter (unprocessed_of user_id) q)).

Definition count_documents (user_id : string) (s : state) : Z * state :=
  let n := pending_of user_id (message_queue s) in
  (n, {| processing_users := processing_users s;
         message_queue := message_queue s;
         tasks := tasks s;
         effects := effects s ++ [CountDocuments user_id n] |}).

(** [self.processing_users.discard(user_id)] *)
Definition discard (user_id : string) (s : state) : state :=
  {| processing_users := processing_users s ∖ {[user_id]};
     message_queue := message_queue s;
     tasks := tasks s;
     effects := effects s ++ [Discard user_id] |}.

(** [self.processing_users.add(user_id)] *)
Definition add (user_id : string) (s : state) : state :=
  {| processing_users := {[user_id]} ∪ processing_users s;
     message_queue := message_queue s;
     tasks := tasks s;
     effects := effects s ++ [Add user_id] |}.

(** [asyncio.create_task(self._process_messages(user_id))] *)
Definition create_task (user_id : string) (s : state) : state :=
  {| processing_users := processing_users s;
     message_queue := message_queue s;
     tasks := tasks s ++ [(user_id, Created)];
     effects := effects s ++ [CreateTask user_id] |}.

(** [TelegramBot.handle_message]: the coroutine has no [await], it runs in
    one piece. *)
Definition handle_message (user_id : string) (message_text : str) (s : state)
  : state :=
  let s1 := add_message user_id message_text s in
  if bool_decide (user_id ∉ processing_users s1)
  then create_task user_id (add user_id s1)
  else s1.

(** Lines 71 to 74 of [TelegramBot.handle_document], run in one piece once
    the reply of the successful upload has been sent. *)
Definition handle_document (user_id : string) (s : state) : state :=
  if bool_decide (user_id ∉ processing_users s)
  then create_task user_id (add user_id s)
  else s.

(** The [finally] block of [_process_messages] (lines 104 to 114); nothing in
    it suspends. *)
Definition finally_block (user_id : string) (s : state) : state :=
  let s1 := discard user_id s in
  let '(pending_messages, s2) := count_documents user_id s1 in
  if pending_messages >? 0
  then create_task user_id (add user_id s2)
  else s2.

Definition set_phase (i : nat) (user_id : string) (p : phase) (s : state)
  : state :=
  {| processing_users := processing_users s;
     message_queue := message_queue s;
     tasks := <[i := (user_id, p)]> (tasks s);
     effects := effects s |}.

(** Task [i] leaves the [try] (by return or by exception), runs the
    [finally] block and ends. *)
Definition complete (i : nat) (user_id : string) (s : state) : state :=
  set_phase i user_id Done (finally_block user_id s).

(** Modelled from the spec: the Batch Processor behind
    [message_handler.process_message_queue], whose code is not part of
    [bot.py].  While a pass of [user_id] waits for it, it marks unprocessed
    messages of that user as processed; [claimed] says which ones (all of
    them for the processor of the spec). *)
Definition mark_processed (user_id : string) (claimed : queued_message -> bool)
  (s : state) : state :=
  {| processing_users := processing_users s;
     message_queue :=
       List.map (fun m =>
                   if unprocessed_of user_id m && claimed m
                   then {| qm_user_id := qm_user_id m; qm_text := qm_text m;
                           qm_is_processed := true |}
                   else m) (message_queue s);
     tasks := tasks s;
     effects := effects s |}.

(** [if response:] for the value returned by [process_message_queue]. *)
Definition response_truthy (response : option str) : bool :=
  match response with Some text => truthy text | None => false end.

(** What the event loop can run next: a handler for an inbound update, or
    the next piece of task [i] up to its next [await]. *)
Inductive label :=
| Inbound (user_id : string) (message_text : str)
| Uploaded (user_id : string)
| Start (i : nat)
| Claim (i : nat) (claimed : queued_message -> bool)
| ProcessReturned (i : nat) (response : option str)
| ProcessRaised (i : nat)
| SendReturned (i : nat)
| SendRaised (i : nat).

Definition step (l : label) (s : state) : option state :=
  match l with
  | Inbound user_id message_text => Some (handle_message user_id message_text s)
  | Uploaded user_id => Some (handle_document user_id s)
  | Start i =>
      match tasks s !! i with
      | Some (user_id, Created) => Some (set_phase i user_id Processing s)
      | _ => None
      end
  | Claim i claimed =>
      match tasks s !! i with
      | Some (user_id, Processing) => Some (mark_processed user_id claimed s)
      | _ => None
      end
  | ProcessReturned i response =>
      match tasks s !! i with
      | Some (user_id, Processing) =>
          if response_truthy response
          then Some (set_phase i user_id Sending s)
          else Some (complete i user_id s)
      | _ => None
      end
  | ProcessRaised i =>
      match tasks s !! i with
      | Some (user_id, Processing) => Some (complete i user_id s)
      | _ => None
      end
  | SendReturned i | SendRaised i =>
      match tasks s !! i with
      | Some (user_id, Sending) => Some (complete i user_id s)
      | _ => None
      end
  end.

(** Runs a schedule, one label after the other. *)
Fixpoint run (ls : list label) (s : state) : option state :=
  match ls with
  | [] => Some s
  | l :: rest =>
      match step l s with
      | Some s' => run rest s'
      | None => None
      end
  end.

Inductive reachable_from (s0 : state) : state -> Prop :=
| reach_refl : reachable_from s0 s0
| reach_step s l s' :
    reachable_from s0 s -> step l s = Some s' -> reachable_from s0 s'.

(** The passes of [user_id] that exist and have not finished. *)
Fixpoint active_passes (user_id : string) (ts : list (string * phase)) : nat :=
  match ts with
  | [] => O
  | (u, p) :: rest =>
      (if bool_decide (u = user_id) && negb (is_done p) then 1 else 0)%nat
      + active_passes user_id rest
  end.

End Scheduler.

Import Scheduler.

(** ** Notions used in the statements *)

(** [s] does not begin with a whitespace character. *)
Definition starts_clean (s : str) : bool :=
  match s with
  | [] => true
  | c :: _ => negb (isspace c)
  end.

(** [s] does not end with a whitespace character. *)
Definition ends_clean (s : str) : bool :=
  match s with
  | [] => true
  | _ :: _ => negb (isspace (List.last s 0%N))
  end.

(** [s] has neither leading nor trailing whitespace. *)
Definition stripped (s : str) : Prop :=
  starts_clean s = true /\ ends_clean s = true.

(** A paragraph that the split hands on unchanged: not empty, no blank line
    inside, no whitespace at either end. *)
Definition plain_paragraph (p : str) : Prop :=
  p <> [] /\ contains blank_line p = false /\ stripped p.

(** The texts of the first send of every iteration of the sending loop. *)
Definition part_texts (s : sent) : list str :=
  match s with
  | Direct _ => []
  | InParts runs => List.map (fun r => a_text (p_send r)) runs
  end.

(** The send of a run raised the too-long error. *)
Definition too_long_run (r : part_run) : bool :=
  match a_raised (p_send r) with
  | Some e => is_too_long e
  | None => false
  end.

(** No send of the list raised. *)
Definition all_sent (l : list attempt) : Prop :=
  Forall (fun a => a_raised a = None) l.

(** What one iteration of the sending loop leaves behind, for the limit
    [max_length]: the handler prints the error of a failed send; it sends
    subparts only after the too-long error, and then the subparts sent are
    the windows of the failed text, in order, up to the first one whose send
    raises. *)
Definition run_ok (max_length : Z) (r : part_run) : Prop :=
  p_printed r = option_map (error_line (p_index r)) (a_raised (p_send r))
  /\ (too_long_run r = false -> p_subparts r = [])
  /\ (too_long_run r = true ->
      forall ws, subparts_of (a_text (p_send r)) max_length = Some ws ->
      exists rest,
        ws = List.map a_text (p_subparts r) ++ rest
        /\ (all_sent (p_subparts r) -> rest = [])).

(** What the sending loop, started at part number [i] on [parts], leaves
    behind: one run per part reached, in order, each sending the message of
    its part; every part is reached when the loop ends without an exception;
    and the loop does not stop after a run whose send did not raise the
    too-long error. *)
Definition loop_ok (max_length total_parts i : Z) (parts : list str)
  (runs : list part_run) (e : option exn) : Prop :=
  Forall (run_ok max_length) runs
  /\ (forall k run, runs !! k = Some run ->
      exists part, parts !! k = Some part
        /\ p_index run = i + Z.of_nat k
        /\ a_text (p_send run) = part_message total_parts (i + Z.of_nat k) part)
  /\ (e = None -> length runs = length parts)
  /\ (forall k run, runs !! k = Some run -> too_long_run run = false ->
      length runs = S k -> e = None)
  /\ (runs = [] -> e = None).



(** [run] is the last iteration in [runs]. *)
Definition last_run (runs : list part_run) (run : part_run) : Prop :=
  exists before, runs = before ++ [run].

(** A transport that refuses every text of more than 14 characters as too
    long; the state is the list of texts delivered. *)
Definition narrow_send (delivered : list str) (text : str)
  : option exn * list str :=
  if len text >? 14 then
    (Some (BadRequest (lit "Message is too long")), delivered)
  else (None, delivered ++ [text]).


(** Whether a task counts as an active pass of [user_id]. *)
Definition counts_for (user_id owner : string) (p : phase) : nat :=
  if bool_decide (owner = user_id) && negb (is_done p) then 1%nat else 0%nat.

(** The in-flight set tells exactly who has an active pass, and nobody has
    two. *)
Definition in_flight_exact (users : gset string) (ts : list (string * phase))
  : Prop :=
  forall user_id,
    active_passes user_id ts
    = if bool_decide (user_id ∈ users) then 1%nat else 0%nat.

(** The race of the spec: message A arrives, the pass starts and claims it,
    message B arrives during the pass, the reply is sent, the pass ends. *)
Definition race_schedule : list label :=
  [Inbound "7" (lit "A"); Start 0; Claim 0 (fun _ => true);
   Inbound "7" (lit "B"); ProcessReturned 0 (Some (lit "hi"));
   SendReturned 0].

(** The same race with a Batch Processor that raises after its claim. *)
Definition failing_schedule : list label :=
  [Inbound "7" (lit "A"); Start 0; Claim 0 (fun _ => true);
   Inbound "7" (lit "B"); ProcessRaised 0].

(** A user with unprocessed messages is in flight. *)
Definition backlog_covered (user_id : string) (s : state) : Prop :=
  0 < pending_of user_id (message_queue s) -> user_id ∈ processing_users s.

(** A group of paragraphs that begins with a non-empty paragraph. *)
Definition headed (g : list str) : Prop :=
  match g with
  | [] => False
  | p :: _ => p <> []
  end.

(** The part made of a group of paragraphs: their join, stripped. *)
Definition part_of_group (g : list str) : str := strip (join blank_line g).



(** In a log of effects, [Add] and [CreateTask] come only as a pair for one
    user, the [Add] first. *)
Fixpoint spawns_paired (es : list effect) : bool :=
  match es with
  | [] => true
  | Add u :: CreateTask v :: rest => bool_decide (u = v) && spawns_paired rest
  | Add _ :: _ => false
  | CreateTask _ :: _ => false
  | _ :: rest => spawns_paired rest
  end.

(** The in-flight set after the effects [es], started from [users]; [None]
    when an [Add] meets a user who is already in the set. *)
Fixpoint replay (users : gset string) (es : list effect)
  : option (gset string) :=
  match es with
  | [] => Some users
  | Add u :: rest =>
      if bool_decide (u ∈ users) then None else replay ({[u]} ∪ users) rest
  | Discard u :: rest => replay (users ∖ {[u]}) rest
  | _ :: rest => replay users rest
  end.

(** The user a label is about: the sender of the update, or the owner of
    the task. *)
Definition label_user (l : label) (s : state) : option string :=
  match l with
  | Inbound u _ | Uploaded u => Some u
  | Start i | Claim i _ | ProcessReturned i _ | ProcessRaised i
  | SendReturned i | SendRaised i =>
      match tasks s !! i with
      | Some (u, _) => Some u
      | None => None
      end
  end.

(** [m'] is the message [m], possibly marked processed since. *)
Definition same_message (m m' : queued_message) : Prop :=
  qm_user_id m' = qm_user_id m /\ qm_text m' = qm_text m
  /\ (qm_is_processed m = true -> qm_is_processed m' = true).

(** [n] passes in a row, the first one being task [i], each started and
    ended by an exception of the Batch Processor. *)
Fixpoint retry_schedule (i n : nat) : list label :=
  match n with
  | O => []
  | S n' => Start i :: ProcessRaised i :: retry_schedule (S i) n'
  end.

(** A pass of task [i] during which the Batch Processor claims everything
    and returns [response]. *)
Definition full_pass (i : nat) (response : option str) : list label :=
  [Start i; Claim i (fun _ => true); ProcessReturned i response]
    ++ (if response_truthy response then [SendReturned i] else []).

(** ** Documents: the listing and the upload handler (lines 34 to 81) *)

Module Documents.

Definition slash : char := 47%N.

(** [os.path.join(a, b)] for two components, as [posixpath] computes it. *)
Definition path_join (a b : str) : str :=
  if starts_with [slash] b then b
  else if negb (truthy a) || N.eqb (List.last a 0%N) slash then a ++ b
  else a ++ [slash] ++ b.

(** [os.path.basename(p)] of [posixpath]: what follows the last slash. *)
Fixpoint basename (p : str) : str :=
  match p with
  | [] => []
  | c :: r => if contains [slash] r then basename r
              else if N.eqb c slash then r else p
  end.

(** [DOCUMENT_UPLOAD_PATH] of [config.py]. *)
Definition DOCUMENT_UPLOAD_PATH : str := lit "uploads".

(** [f"{user_id}_{document.file_name}"]; a document without file name has
    [file_name = None], which the f-string prints as [None]. *)
Definition stored_name (user_id : string) (file_name : option str) : str :=
  lit user_id ++ lit "_"
    ++ match file_name with Some n => n | None => lit "None" end.

(** [file_path] of line 57. *)
Definition upload_path (user_id : string) (file_name : option str) : str :=
  path_join DOCUMENT_UPLOAD_PATH (stored_name user_id file_name).

(** One entry of [get_user_documents]; [upload_time] is kept as the text
    that [strftime('%Y-%m-%d %H:%M')] gives for it. *)
Record document := {
  doc_file_path : str;
  doc_status : str;
  doc_upload_time : str
}.

(** The check mark and the cross of line 45. *)
Definition check_mark : str := [9989%N].
Definition cross_mark : str := [10060%N].

(** The line of one document (line 46). *)
Definition document_line (doc : document) : str :=
  (if bool_decide (doc_status doc = lit "processed")
   then check_mark else cross_mark)
    ++ lit " " ++ basename (doc_file_path doc) ++ lit " - "
    ++ doc_upload_time doc ++ [newline].

(** The text that [list_documents] replies with. *)
Definition list_documents (docs : list document) : str :=
  match docs with
  | [] => lit "You haven't uploaded any documents yet."
  | _ :: _ =>
      fold_left (fun response doc => response ++ document_line doc) docs
        (lit "Your uploaded documents:" ++ [newline; newline])
  end.

(** What [handle_document] acts on: the files on disk, the replies sent to
    the chat, and the scheduler. *)
Record world := {
  files : gset (list N);
  replies : list str;
  sched : state
}.

(** A computation that changes the world and returns or raises. *)
Definition M (A : Type) : Type := world -> (exn + A) * world.

Definition ret {A} (a : A) : M A := fun w => (inr a, w).

Definition raise {A} (e : exn) : M A := fun w => (inl e, w).

Definition bind {A B} (m : M A) (k : A -> M B) : M B :=
  fun w =>
    match m w with
    | (inl e, w1) => (inl e, w1)
    | (inr a, w1) => k a w1
    end.

(** [try: body / except Exception as e: handler(e)] *)
Definition try_except {A} (body : M A) (handler : exn -> M A) : M A :=
  fun w =>
    match body w with
    | (inl e, w1) => handler e w1
    | (inr a, w1) => (inr a, w1)
    end.

(** [try: body / finally: cleanup]: the cleanup runs in every case, and an
    exception of the cleanup replaces the outcome of the body. *)
Definition try_finally {A} (body : M A) (cleanup : M unit) : M A :=
  fun w =>
    match body w with
    | (r, w1) =>
        match cleanup w1 with
        | (inl e, w2) => (inl e, w2)
        | (inr _, w2) => (r, w2)
        end
    end.

#[export] Instance M_ret : MRet M := @ret.
#[export] Instance M_bind : MBind M := fun A B k m => bind m k.

(** What [document_handler.process_document] gives back: an exception, or
    a result whose ["status"] entry is the text given, when there is one. *)
Inductive processed := Raises (e : exn) | Returns (status : option str).

Section Handler.

(** The collaborators, none of them in [bot.py]: the download of lines 56
    to 58, which may raise and otherwise leaves the files as given;
    [process_document]; and [update.message.reply_text], which may raise
    depending on what has been sent before. *)
Variable download : gset (list N) -> str -> option exn * gset (list N).
Variable process_document :
  str -> string -> gset (list N) -> processed * gset (list N).
Variable reply_text : list str -> str -> option exn.

Definition do_download (file_path : str) : M unit :=
  fun w =>
    let '(r, fs) := download (files w) file_path in
    let w1 := {| files := fs; replies := replies w; sched := sched w |} in
    match r with
    | Some e => (inl e, w1)
    | None => (inr tt, w1)
    end.

(** [result = await process_document(...)] followed by [result["status"]];
    a result without that entry raises [KeyError('status')]. *)
Definition do_process (file_path : str) (user_id : string) : M str :=
  fun w =>
    let '(r, fs) := process_document file_path user_id (files w) in
    let w1 := {| files := fs; replies := replies w; sched := sched w |} in
    match r with
    | Raises e => (inl e, w1)
    | Returns None => (inl (OtherException (lit "'status'")), w1)
    | Returns (Some status) => (inr status, w1)
    end.

Definition do_reply (text : str) : M unit :=
  fun w =>
    match reply_text (replies w) text with
    | Some e => (inl e, w)
    | None =>
        (inr tt, {| files := files w; replies := replies w ++ [text];
                    sched := sched w |})
    end.

(** Lines 71 to 74. *)
Definition do_schedule (user_id : string) : M unit :=
  fun w =>
    (inr tt, {| files := files w; replies := replies w;
                sched := Scheduler.handle_document user_id (sched w) |}).

(** [if os.path.exists(file_path): os.remove(file_path)] *)
Definition do_cleanup (file_path : str) : M unit :=
  fun w =>
    if bool_decide (file_path ∈ files w)
    then (inr tt, {| files := files w ∖ {[file_path]};
                     replies := replies w; sched := sched w |})
    else (inr tt, w).

Definition already_text : str :=
  lit "This document has already been uploaded and processed.".

Definition success_text : str :=
  lit "Document uploaded and processed successfully! "
    ++ lit "I will analyze it and provide a summary.".

(** [f"Error processing document: {str(e)}"] *)
Definition error_text (e : exn) : str :=
  lit "Error processing document: " ++ str_of_exn e.

(** [TelegramBot.handle_document], taken alone: the scheduler is read and
    changed only at lines 71 to 74, and [os.remove] of a file that exists
    is taken not to raise. *)
Definition handle_document (user_id : string) (file_name : option str)
  : M unit :=
  let file_path := upload_path user_id file_name in
  do_download file_path ;;
  try_finally
    (try_except
       (status ← do_process file_path user_id;
        if bool_decide (status = lit "exists")
        then do_reply already_text
        else (do_reply success_text ;; do_schedule user_id))
       (fun e => do_reply (error_text e)))
    (do_cleanup file_path).

End Handler.

(** The exception with which [do_process] ends, if it does. *)
Definition raised_by (p : processed) : option exn :=
  match p with
  | Raises e => Some e
  | Returns None => Some (OtherException (lit "'status'"))
  | Returns (Some _) => None
  end.

(** Collaborators for examples: a download that writes the file, a
    [process_document] that accepts, one that fails and one whose result has
    no status, a chat that takes every reply and one that is down. *)
Definition sample_download (fs : gset (list N)) (file_path : str)
  : option exn * gset (list N) := (None, {[file_path]} ∪ fs).

Definition sample_accept (file_path : str) (user_id : string)
  (fs : gset (list N)) : processed * gset (list N) :=
  (Returns (Some (lit "processed")), fs).

Definition sample_fail (file_path : str) (user_id : string)
  (fs : gset (list N)) : processed * gset (list N) :=
  (Raises (OtherException (lit "unsupported file type")), fs).

Definition sample_chat (sent : list str) (text : str) : option exn := None.

Definition sample_chat_down (sent : list str) (text : str) : option exn :=
  if bool_decide (text = success_text)
  then Some (OtherException (lit "Timed out")) else None.

Definition empty_world : world :=
  {| files := ∅; replies := []; sched := initial [] |}.

End Documents.

(** * Properties *)

(** Closes a goal whose hypotheses on set membership contradict each
    other. *)
Ltac membership_clash :=
  exfalso;
  rewrite ?elem_of_union, ?elem_of_difference, ?elem_of_singleton in *;
  intuition congruence.

(** ** Examples of the definitions *)

Example split_blank_line_ex :
  split_blank_line (lit "ab" ++ blank_line ++ lit "c" ++ blank_line ++ [newline])
  = [lit "ab"; lit "c"; [newline]].
Proof. reflexivity. Qed.

Example split_blank_line_three_newlines :
  split_blank_line [newline; newline; newline] = [[]; [newline]].
Proof. reflexivity. Qed.

Example strip_ex : strip (lit "  a b " ++ [newline]) = lit "a b".
Proof. reflexivity. Qed.

Example header_ex : header 2 13 = lit "Part 2/13:" ++ [newline; newline].
Proof. reflexivity. Qed.

Example subparts_ex :
  subparts_of (lit "abcdefg") 3 = Some [lit "abc"; lit "def"; lit "g"].
Proof. reflexivity. Qed.

Example subparts_zero : subparts_of (lit "abc") 0 = None.
Proof. reflexivity. Qed.

Example too_long_ex :
  is_too_long (BadRequest (lit "Message is too long")) = true
  /\ is_too_long (BadRequest (lit "Message text is empty")) = false
  /\ is_too_long (OtherException (lit "Message is too long")) = false.
Proof. repeat split; reflexivity. Qed.

(** ** Stripping *)

Lemma lstrip_length s : (length (lstrip s) <= length s)%nat.
Proof.
  induction s as [|c r IH]; simpl; [lia|].
  destruct (isspace c); simpl; lia.
Qed.

Lemma rstrip_length s : (length (rstrip s) <= length s)%nat.
Proof.
  induction s as [|c r IH]; simpl; [lia|].
  destruct (rstrip r); [destruct (isspace c)|]; simpl in *; lia.
Qed.

Lemma strip_len s : len (strip s) <= len s.
Proof.
  unfold strip, len.
  pose proof (rstrip_length (lstrip s)). pose proof (lstrip_length s). lia.
Qed.

Lemma lstrip_starts_clean s : starts_clean (lstrip s) = true.
Proof.
  induction s as [|c r IH]; simpl; [reflexivity|].
  destruct (isspace c) eqn:E; [exact IH|]. simpl. now rewrite E.
Qed.

Lemma lstrip_clean s : starts_clean s = true -> lstrip s = s.
Proof.
  destruct s as [|c r]; simpl; [reflexivity|].
  destruct (isspace c); [discriminate | reflexivity].
Qed.

Lemma starts_clean_app a b :
  a <> [] -> starts_clean (a ++ b) = starts_clean a.
Proof. destruct a; [congruence | reflexivity]. Qed.

Lemma rstrip_starts_clean s :
  starts_clean s = true -> starts_clean (rstrip s) = true.
Proof.
  destruct s as [|c r]; simpl; [reflexivity|]. intros Hc.
  destruct (rstrip r); [|exact Hc].
  destruct (isspace c) eqn:E; [discriminate | simpl; now rewrite E].
Qed.

Lemma ends_clean_cons c c' r :
  ends_clean (c :: c' :: r) = ends_clean (c' :: r).
Proof. reflexivity. Qed.

Lemma rstrip_ends_clean s : ends_clean (rstrip s) = true.
Proof.
  induction s as [|c r IH]; simpl; [reflexivity|].
  destruct (rstrip r) as [|c' r'] eqn:E.
  - destruct (isspace c) eqn:Ec; [reflexivity|]. simpl. now rewrite Ec.
  - now rewrite ends_clean_cons.
Qed.

Lemma rstrip_clean s : ends_clean s = true -> rstrip s = s.
Proof.
  induction s as [|c r IH]; intros H; [reflexivity|].
  destruct r as [|c' r'].
  - simpl in *. now destruct (isspace c).
  - rewrite ends_clean_cons in H. cbn [rstrip]. cbn [rstrip] in IH.
    now rewrite (IH H).
Qed.

Lemma strip_stripped s : stripped (strip s).
Proof.
  split.
  - unfold strip. apply rstrip_starts_clean, lstrip_starts_clean.
  - unfold strip. apply rstrip_ends_clean.
Qed.

Lemma stripped_strip s : stripped s -> strip s = s.
Proof.
  intros [H1 H2]. unfold strip.
  rewrite (lstrip_clean s H1). now apply rstrip_clean.
Qed.

(** ** Invariants of the paragraph loop *)

Section LoopInvariant.

(** [P] holds of the finished parts, [Q] of the running buffer. *)
Variables (P Q : str -> Prop) (max_length : Z).
Variable R : str -> Prop.
Hypothesis strip_PQ : forall cur, Q cur -> P (strip cur).
Hypothesis start_Q : forall p, R p -> Q p.
Hypothesis grow_Q : forall cur p,
  Q cur -> R p -> len cur + len p + 2 <= max_length ->
  Q ((if truthy cur then cur ++ blank_line else cur) ++ p).

Lemma split_step_invariant st p :
  Forall P (fst st) -> Q (snd st) -> R p ->
  Forall P (fst (split_step max_length st p))
  /\ Q (snd (split_step max_length st p)).
Proof.
  destruct st as [parts cur]. simpl. intros HP HQ HR.
  destruct (len cur + len p + 2 >? max_length) eqn:E; simpl.
  - split; [|now apply start_Q].
    destruct (truthy cur); [|exact HP].
    apply Forall_app. split; [exact HP|].
    constructor; [now apply strip_PQ | constructor].
  - split; [exact HP|]. apply grow_Q; auto. lia.
Qed.

Lemma split_fold_invariant ps st :
  Forall P (fst st) -> Q (snd st) -> Forall R ps ->
  Forall P (fst (fold_left (split_step max_length) ps st))
  /\ Q (snd (fold_left (split_step max_length) ps st)).
Proof.
  revert st. induction ps as [|p ps IH]; intros st HP HQ HR; simpl.
  - now split.
  - inversion HR as [|? ? Hp Hps]; subst.
    destruct (split_step_invariant st p HP HQ Hp) as [HP' HQ'].
    now apply IH.
Qed.

Lemma flush_invariant st :
  Forall P (fst st) -> Q (snd st) -> Forall P (flush st).
Proof.
  destruct st as [parts cur]. simpl. intros HP HQ.
  destruct (truthy cur); [|exact HP].
  apply Forall_app. split; [exact HP|].
  constructor; [now apply strip_PQ | constructor].
Qed.

Lemma split_parts_invariant text :
  Q [] -> Forall R (split_blank_line text) ->
  Forall P (split_parts text max_length).
Proof.
  intros HQ HR. unfold split_parts.
  destruct (split_fold_invariant (split_blank_line text) ([], []))
    as [HP' HQ']; simpl; auto.
  now apply flush_invariant.
Qed.

End LoopInvariant.

Lemma split_blank_line_not_nil text : split_blank_line text <> [].
Proof.
  induction text as [|c r IH]; simpl; [discriminate|].
  destruct r as [|c' r']; [discriminate|].
  destruct (is_newline c && is_newline c'); [discriminate|].
  destruct (split_blank_line (c' :: r')); [congruence | discriminate].
Qed.

Lemma len_app (a b : str) : len (a ++ b) = len a + len b.
Proof. unfold len. rewrite length_app. lia. Qed.

Lemma len_nonneg (s : str) : 0 <= len s.
Proof. unfold len. lia. Qed.

(** C4. If every blank-line-delimited paragraph of [text] is at most
    [max_length] long, every part of the greedy paragraph split, before any
    marker is put in front of it, is at most [max_length] long. *)
Theorem part_size_bound (text : str) (max_length : Z) :
  Forall (fun p => len p <= max_length) (split_blank_line text) ->
  Forall (fun part => len part <= max_length) (split_parts text max_length).
Proof.
  intros Hps.
  assert (H0 : 0 <= max_length).
  { destruct (split_blank_line text) as [|p ps] eqn:E.
    - now apply split_blank_line_not_nil in E.
    - inversion Hps; subst. pose proof (len_nonneg p). lia. }
  apply (split_parts_invariant (fun part => len part <= max_length)
           (fun cur => len cur <= max_length) max_length
           (fun p => len p <= max_length)); auto.
  - intros cur Hc. pose proof (strip_len cur). lia.
  - intros cur p Hc Hp Hle.
    rewrite len_app. destruct (truthy cur) eqn:E.
    + rewrite len_app. change (len blank_line) with 2. lia.
    + destruct cur; [|discriminate]. change (len []) with 0 in *. lia.
Qed.

Lemma part_size_bound_witness :
  Forall (fun p => len p <= 4)
    (split_blank_line (lit "abcd" ++ blank_line ++ lit "ab" ++ blank_line ++ lit "c"))
  /\ Forall (fun part => len part <= 4)
       (split_parts (lit "abcd" ++ blank_line ++ lit "ab" ++ blank_line ++ lit "c") 4).
Proof.
  split.
  - repeat constructor; vm_compute; discriminate.
  - apply part_size_bound. repeat constructor; vm_compute; discriminate.
Defined.

(** C10. Every part of the multi-part path has gone through [strip()]: it
    has neither leading nor trailing whitespace, and stripping it again
    changes nothing. *)
Theorem parts_are_stripped (text : str) (max_length : Z) :
  Forall (fun part => stripped part /\ strip part = part)
    (split_parts text max_length).
Proof.
  apply (split_parts_invariant (fun part => stripped part /\ strip part = part)
           (fun _ => True) max_length (fun _ => True)); auto.
  - intros cur _. split; [apply strip_stripped|].
    apply stripped_strip, strip_stripped.
  - apply Forall_forall. auto.
Qed.

(** Whitespace of a paragraph at a part boundary is dropped. *)
Example boundary_whitespace_dropped :
  split_parts (lit "abcd " ++ blank_line ++ lit " ab") 5 = [lit "abcd"; lit "ab"].
Proof. reflexivity. Qed.

(** ** Splitting and joining on blank lines *)

Lemma contains_blank_line_cons c c' r :
  contains blank_line (c :: c' :: r) = false ->
  is_newline c && is_newline c' = false
  /\ contains blank_line (c' :: r) = false.
Proof.
  intros H. cbn [contains] in H.
  apply orb_false_iff in H as [H1 H2]. split; [|exact H2].
  unfold blank_line in H1. cbn [starts_with] in H1.
  unfold is_newline. rewrite andb_true_r in H1.
  now rewrite (N.eqb_sym c), (N.eqb_sym c').
Qed.

Lemma split_blank_line_cons2 c c' r :
  split_blank_line (c :: c' :: r) =
  if is_newline c && is_newline c'
  then [] :: split_blank_line r
  else cons_first c (split_blank_line (c' :: r)).
Proof. reflexivity. Qed.

(** A text without a blank line is one paragraph. *)
Lemma split_blank_line_single p :
  contains blank_line p = false -> split_blank_line p = [p].
Proof.
  induction p as [|c r IH]; intros H; [reflexivity|].
  destruct r as [|c' r']; [reflexivity|].
  apply contains_blank_line_cons in H as [H1 H2].
  rewrite split_blank_line_cons2, H1, (IH H2). reflexivity.
Qed.

(** The scan cuts after a paragraph that has no blank line inside and does
    not end in a newline. *)
Lemma split_blank_line_app p rest :
  contains blank_line p = false ->
  is_newline (List.last p 0%N) = false ->
  split_blank_line (p ++ blank_line ++ rest) = p :: split_blank_line rest.
Proof.
  induction p as [|c r IH]; intros Hc Hl; [reflexivity|].
  destruct r as [|c' r'].
  - simpl in Hl.
    change ([c] ++ blank_line ++ rest) with (c :: newline :: newline :: rest).
    rewrite split_blank_line_cons2, Hl. reflexivity.
  - apply contains_blank_line_cons in Hc as [H1 H2].
    change ((c :: c' :: r') ++ blank_line ++ rest)
      with (c :: c' :: (r' ++ blank_line ++ rest)).
    rewrite split_blank_line_cons2, H1.
    change (c' :: r' ++ blank_line ++ rest)
      with ((c' :: r') ++ blank_line ++ rest).
    rewrite (IH H2 Hl). reflexivity.
Qed.

Lemma stripped_last p : stripped p -> is_newline (List.last p 0%N) = false.
Proof.
  intros [_ H]. destruct p as [|c r]; [reflexivity|].
  unfold ends_clean in H. unfold is_newline.
  destruct (N.eqb_spec (List.last (c :: r) 0%N) newline) as [E|];
    [|reflexivity].
  rewrite E in H. discriminate.
Qed.

Lemma split_join ps :
  ps <> [] -> Forall plain_paragraph ps ->
  split_blank_line (join blank_line ps) = ps.
Proof.
  induction ps as [|p ps IH]; intros Hne Hps; [congruence|].
  inversion Hps as [|? ? [Hp1 [Hp2 Hp3]] Hrest]; subst.
  destruct ps as [|q ps].
  - simpl. now apply split_blank_line_single.
  - change (join blank_line (p :: q :: ps))
      with (p ++ blank_line ++ join blank_line (q :: ps)).
    rewrite split_blank_line_app; auto using stripped_last.
    f_equal. apply IH; [discriminate | exact Hrest].
Qed.

(** ** Groups of paragraphs *)

Lemma join_snoc g p :
  g <> [] -> join blank_line (g ++ [p]) = join blank_line g ++ blank_line ++ p.
Proof.
  induction g as [|a g IH]; intros Hne; [congruence|].
  destruct g as [|b g]; [reflexivity|].
  change (join blank_line ((a :: b :: g) ++ [p]))
    with (a ++ blank_line ++ join blank_line ((b :: g) ++ [p])).
  rewrite IH by discriminate.
  change (join blank_line (a :: b :: g))
    with (a ++ blank_line ++ join blank_line (b :: g)).
  now rewrite <- !app_assoc.
Qed.

Lemma join_app a b :
  a <> [] -> b <> [] ->
  join blank_line (a ++ b) = join blank_line a ++ blank_line ++ join blank_line b.
Proof.
  induction a as [|x a IH]; intros Ha Hb; [congruence|].
  destruct a as [|y a].
  - destruct b; [congruence | reflexivity].
  - change (join blank_line ((x :: y :: a) ++ b))
      with (x ++ blank_line ++ join blank_line ((y :: a) ++ b)).
    rewrite IH by (discriminate || assumption).
    change (join blank_line (x :: y :: a))
      with (x ++ blank_line ++ join blank_line (y :: a)).
    now rewrite <- !app_assoc.
Qed.

Lemma join_not_nil g :
  g <> [] -> Forall plain_paragraph g -> join blank_line g <> [].
Proof.
  intros Hne Hg. destruct g as [|p g]; [congruence|].
  inversion Hg as [|? ? [Hp _] _]; subst.
  destruct g; simpl; [exact Hp|].
  destruct p; [congruence | discriminate].
Qed.

Lemma join_starts_clean g :
  g <> [] -> Forall plain_paragraph g ->
  starts_clean (join blank_line g) = true.
Proof.
  intros Hne Hg. destruct g as [|p g]; [congruence|].
  inversion Hg as [|? ? [Hp [_ [Hc _]]] _]; subst.
  destruct g; simpl; [exact Hc|].
  now rewrite starts_clean_app.
Qed.

Lemma ends_clean_app a b :
  b <> [] -> ends_clean (a ++ b) = ends_clean b.
Proof.
  intros Hb. induction a as [|c a IH]; [reflexivity|].
  destruct (a ++ b) as [|c' r] eqn:E.
  - destruct a; [simpl in E; congruence | discriminate].
  - change ((c :: a) ++ b) with (c :: (a ++ b)). rewrite E.
    rewrite ends_clean_cons. exact IH.
Qed.

Lemma join_ends_clean g :
  g <> [] -> Forall plain_paragraph g ->
  ends_clean (join blank_line g) = true.
Proof.
  induction g as [|p g IH]; intros Hne Hg; [congruence|].
  inversion Hg as [|? ? [Hp [_ [_ Hc]]] Hrest]; subst.
  destruct g as [|q g]; [exact Hc|].
  change (join blank_line (p :: q :: g))
    with (p ++ blank_line ++ join blank_line (q :: g)).
  assert (Hq : join blank_line (q :: g) <> [])
    by (apply join_not_nil; [discriminate | exact Hrest]).
  rewrite ends_clean_app.
  - rewrite ends_clean_app by exact Hq.
    apply IH; [discriminate | exact Hrest].
  - discriminate.
Qed.

Lemma strip_join g :
  g <> [] -> Forall plain_paragraph g ->
  strip (join blank_line g) = join blank_line g.
Proof.
  intros Hne Hg. apply stripped_strip.
  split; [now apply join_starts_clean | now apply join_ends_clean].
Qed.

Lemma truthy_true (s : str) : truthy s = true <-> s <> [].
Proof. destruct s; simpl; split; congruence. Qed.

Lemma join_truthy g :
  Forall plain_paragraph g ->
  truthy (join blank_line g) = true <-> g <> [].
Proof.
  intros Hg. rewrite truthy_true. split.
  - intros H E. subst. now apply H.
  - intros H. now apply join_not_nil.
Qed.

Lemma join_falsy g :
  Forall plain_paragraph g -> truthy (join blank_line g) = false -> g = [].
Proof.
  intros Hg H. destruct g as [|p g]; [reflexivity|].
  assert (Ht : truthy (join blank_line (p :: g)) = true)
    by (apply join_truthy; [exact Hg | discriminate]).
  congruence.
Qed.

(** The loop, started with finished parts that are the joins of [groups] and
    a buffer that is the join of [g], ends with parts that are the joins of
    groups of consecutive paragraphs. *)
Lemma fold_groups max_length ps :
  forall parts cur groups g,
  Forall plain_paragraph ps -> Forall plain_paragraph g ->
  Forall (fun x => x <> []) groups ->
  parts = List.map (join blank_line) groups -> cur = join blank_line g ->
  exists groups',
    concat groups' = concat groups ++ g ++ ps
    /\ Forall (fun x => x <> []) groups'
    /\ flush (fold_left (split_step max_length) ps (parts, cur))
       = List.map (join blank_line) groups'.
Proof.
  induction ps as [|p ps IH]; intros parts cur groups g Hps Hg Hgr -> ->.
  - simpl. destruct (truthy (join blank_line g)) eqn:E.
    + apply join_truthy in E; [|exact Hg].
      exists (groups ++ [g]). repeat split.
      * rewrite concat_app. simpl. now rewrite !app_nil_r.
      * apply Forall_app. split; [exact Hgr | now constructor].
      * rewrite List.map_app. simpl. now rewrite strip_join.
    + apply join_falsy in E; [|exact Hg]. subst g.
      exists groups. repeat split; [now rewrite app_nil_r | exact Hgr].
  - inversion Hps as [|? ? Hp Hrest]; subst.
    cbn [fold_left]. unfold split_step at 2.
    destruct (len (join blank_line g) + len p + 2 >? max_length).
    + destruct (truthy (join blank_line g)) eqn:E.
      * apply join_truthy in E; [|exact Hg].
        destruct (IH (List.map (join blank_line) groups ++ [strip (join blank_line g)])
                    p (groups ++ [g]) [p]) as [groups' [H1 [H2 H3]]]; auto.
        { apply Forall_app. split; [exact Hgr | now constructor]. }
        { rewrite List.map_app. simpl. now rewrite strip_join. }
        exists groups'. repeat split; auto.
        rewrite H1, concat_app. simpl. now rewrite app_nil_r, <- !app_assoc.
      * apply join_falsy in E; [|exact Hg]. subst g.
        destruct (IH (List.map (join blank_line) groups) p groups [p])
          as [groups' [H1 [H2 H3]]]; auto.
        exists groups'. repeat split; auto.
    + destruct (truthy (join blank_line g)) eqn:E.
      * apply join_truthy in E; [|exact Hg].
        destruct (IH (List.map (join blank_line) groups)
                    ((join blank_line g ++ blank_line) ++ p) groups (g ++ [p]))
          as [groups' [H1 [H2 H3]]]; auto.
        { apply Forall_app. split; [exact Hg | now constructor]. }
        { rewrite join_snoc by exact E. now rewrite <- app_assoc. }
        exists groups'. repeat split; auto.
        rewrite H1. now rewrite <- !app_assoc.
      * apply join_falsy in E; [|exact Hg]. subst g.
        destruct (IH (List.map (join blank_line) groups) p groups [p])
          as [groups' [H1 [H2 H3]]]; auto.
        exists groups'. repeat split; auto.
Qed.

Lemma concat_not_nil (gs : list (list str)) :
  gs <> [] -> Forall (fun x => x <> []) gs -> concat gs <> [].
Proof.
  destruct gs as [|g gs]; [congruence|]. intros _ H.
  inversion H; subst. destruct g; [congruence | discriminate].
Qed.

(** Joining the joins of non-empty groups joins all their paragraphs. *)
Lemma join_groups (gs : list (list str)) :
  Forall (fun x => x <> []) gs ->
  join blank_line (List.map (join blank_line) gs) = join blank_line (concat gs).
Proof.
  induction gs as [|g gs IH]; intros H; [reflexivity|].
  inversion H as [|? ? Hg Hgs]; subst.
  destruct gs as [|g' gs].
  - simpl. now rewrite app_nil_r.
  - change (join blank_line (List.map (join blank_line) (g :: g' :: gs)))
      with (join blank_line g ++ blank_line
              ++ join blank_line (List.map (join blank_line) (g' :: gs))).
    rewrite IH by exact Hgs.
    change (concat (g :: g' :: gs)) with (g ++ concat (g' :: gs)).
    rewrite join_app; auto.
    apply concat_not_nil; [discriminate | exact Hgs].
Qed.

(** C3, as amended.  For a text [P1 ++ "\n\n" ++ ... ++ "\n\n" ++ Pk] longer
    than [max_length], whose paragraphs are each at most [max_length] long,
    not empty, without a blank line inside and without leading or trailing
    whitespace: every part is the join of a group of consecutive paragraphs
    (no paragraph is split over two parts), the groups in order make up
    [P1..Pk], and the parts rejoined on blank lines give back the text and
    its paragraphs. *)
Theorem paragraph_round_trip (ps : list str) (max_length : Z) :
  len (join blank_line ps) > max_length ->
  Forall (fun p => len p <= max_length) ps ->
  Forall plain_paragraph ps ->
  exists groups : list (list str),
    concat groups = ps
    /\ Forall (fun g => g <> []) groups
    /\ split_parts (join blank_line ps) max_length
       = List.map (join blank_line) groups
    /\ join blank_line (split_parts (join blank_line ps) max_length)
       = join blank_line ps
    /\ (ps <> [] ->
        split_blank_line
          (join blank_line (split_parts (join blank_line ps) max_length)) = ps).
Proof.
  intros _ _ Hps.
  destruct ps as [|p ps'] eqn:Eps.
  - exists [].
    assert (E : split_parts [] max_length = []).
    { unfold split_parts. cbn.
      now destruct (len [] + len [] + 2 >? max_length). }
    cbn [join]. rewrite E. repeat split; auto. intros H. now elim H.
  - rewrite <- Eps in *. assert (Hne : ps <> []) by (subst; discriminate).
    clear Eps.
    destruct (fold_groups max_length ps [] [] [] [])
      as [groups [H1 [H2 H3]]]; auto.
    simpl in H1.
    assert (Hsp : split_parts (join blank_line ps) max_length
                  = List.map (join blank_line) groups).
    { unfold split_parts. rewrite split_join by assumption. exact H3. }
    exists groups. rewrite Hsp, join_groups, H1 by exact H2.
    repeat split; auto. intros _. now apply split_join.
Qed.

Lemma paragraph_round_trip_witness :
  let ps := [lit "abcd"; lit "ab"; lit "c"; lit "xyz"] in
  exists groups : list (list str),
    concat groups = ps
    /\ Forall (fun g => g <> []) groups
    /\ split_parts (join blank_line ps) 4 = List.map (join blank_line) groups
    /\ join blank_line (split_parts (join blank_line ps) 4) = join blank_line ps
    /\ (ps <> [] ->
        split_blank_line (join blank_line (split_parts (join blank_line ps) 4))
        = ps).
Proof.
  apply (paragraph_round_trip [lit "abcd"; lit "ab"; lit "c"; lit "xyz"] 4).
  - reflexivity.
  - repeat constructor; vm_compute; discriminate.
  - repeat constructor; vm_compute; discriminate.
Defined.

(** C3 as stated fails: a paragraph that begins with a space and opens a
    part loses the space, so the parts do not give back the paragraphs. *)
Lemma paragraph_round_trip_fails :
  let ps := [lit "abcd"; lit " ab"] in
  let text := join blank_line ps in
  split_blank_line text = ps
  /\ len text > 4
  /\ Forall (fun p => len p <= 4) ps
  /\ split_parts text 4 = [lit "abcd"; lit "ab"]
  /\ join blank_line (split_parts text 4) <> text
  /\ split_blank_line (join blank_line (split_parts text 4)) <> ps.
Proof.
  repeat split; try reflexivity; try discriminate.
  repeat constructor; vm_compute; discriminate.
Qed.

(** An empty paragraph is dropped as well. *)
Example empty_paragraph_dropped :
  let ps := [lit "abc"; []; lit "abc"] in
  split_blank_line (join blank_line ps) = ps
  /\ split_parts (join blank_line ps) 3 = [lit "abc"; lit "abc"].
Proof. split; reflexivity. Qed.

(** ** Windows of a text that is too long *)






(** ** The sending loop *)

Section SendingLoop.

Context {T : Type}.
Variable send_message : T -> str -> option exn * T.

Lemma send_subparts_spec subparts :
  forall t l e t',
  send_subparts send_message t subparts = (l, e, t') ->
  exists rest,
    subparts = List.map a_text l ++ rest
    /\ (all_sent l -> rest = [])
    /\ (e = None -> all_sent l).
Proof.
  induction subparts as [|w ws IH]; intros t l e t' H; simpl in H.
  - inversion H; subst. exists []. repeat split; auto. constructor.
  - destruct (send_message t w) as [r t1].
    destruct r as [x|].
    + inversion H; subst. exists ws. repeat split; auto.
      * intros Hs. inversion Hs; subst. discriminate.
      * discriminate.
    + destruct (send_subparts send_message t1 ws) as [[l0 e0] t2] eqn:E.
      inversion H; subst.
      destruct (IH _ _ _ _ E) as [rest [H1 [H2 H3]]].
      exists rest. repeat split.
      * simpl. now f_equal.
      * intros Hs. inversion Hs; subst. auto.
      * intros He. constructor; [reflexivity | now apply H3].
Qed.

Lemma loop_ok_cons max_length total_parts i part rest run runs e :
  run_ok max_length run ->
  p_index run = i ->
  a_text (p_send run) = part_message total_parts i part ->
  loop_ok max_length total_parts (i + 1) rest runs e ->
  loop_ok max_length total_parts i (part :: rest) (run :: runs) e.
Proof.
  intros Hok Hi Ht (H1 & H2 & H3 & H4 & H5).
  repeat split.
  - now constructor.
  - intros [|k] r Hk; simpl in Hk.
    + inversion Hk; subst r. exists part.
      change (Z.of_nat 0) with 0. rewrite Z.add_0_r. now repeat split.
    + destruct (H2 k r Hk) as [p [Hp [Hx Hy]]]. exists p.
      repeat split; auto.
      * rewrite Hx. lia.
      * rewrite Hy. f_equal. lia.
  - intros He. simpl. now rewrite H3.
  - intros [|k] r Hk Htl Hlen; simpl in *.
    + apply H5. destruct runs; [reflexivity | discriminate].
    + apply (H4 k r Hk Htl). lia.
  - discriminate.
Qed.

Lemma loop_ok_stop max_length total_parts i part rest run x :
  run_ok max_length run ->
  p_index run = i ->
  a_text (p_send run) = part_message total_parts i part ->
  too_long_run run = true ->
  loop_ok max_length total_parts i (part :: rest) [run] (Some x).
Proof.
  intros Hok Hi Ht Htl. repeat split.
  - now constructor.
  - intros [|k] r Hk; simpl in Hk; [|discriminate].
    inversion Hk; subst r. exists part.
    change (Z.of_nat 0) with 0. rewrite Z.add_0_r. now repeat split.
  - discriminate.
  - intros [|k] r Hk Hf; simpl in Hk; [|discriminate].
    inversion Hk; subst r. congruence.
  - discriminate.
Qed.

Lemma send_parts_spec max_length total_parts parts :
  forall t i runs e t',
  send_parts send_message max_length total_parts t i parts = (runs, e, t') ->
  loop_ok max_length total_parts i parts runs e.
Proof.
  induction parts as [|part rest IH]; intros t i runs e t' H; simpl in H.
  - inversion H; subst. repeat split; auto; try discriminate.
  - destruct (send_message t (part_message total_parts i part)) as [r t1].
    destruct r as [x|].
    + destruct (is_too_long x) eqn:Etl.
      * destruct (subparts_of (part_message total_parts i part) max_length)
          as [ws|] eqn:Ews.
        -- destruct (send_subparts send_message t1 ws) as [[subs e'] t2] eqn:Es.
           destruct (send_subparts_spec _ _ _ _ _ Es) as [rs [R1 [R2 R3]]].
           assert (Hok : run_ok max_length
                     {| p_index := i;
                        p_send := {| a_text := part_message total_parts i part;
                                     a_raised := Some x |};
                        p_printed := Some (error_line i x);
                        p_subparts := subs |}).
           { repeat split; simpl; unfold too_long_run; simpl; try congruence.
             intros _ ws' Hws'. exists rs. split; [congruence | exact R2]. }
           destruct e' as [y|].
           ++ inversion H; subst. apply loop_ok_stop; auto.
           ++ destruct (send_parts send_message max_length total_parts t2
                          (i + 1) rest) as [[runs' e''] t''] eqn:En.
              inversion H; subst. apply loop_ok_cons; eauto.
        -- inversion H; subst. apply loop_ok_stop; auto.
           repeat split; simpl; unfold too_long_run; simpl;
             try (intros; congruence).
      * destruct (send_parts send_message max_length total_parts t1
                    (i + 1) rest) as [[runs' e''] t''] eqn:En.
        inversion H; subst. apply loop_ok_cons; eauto.
        repeat split; simpl; unfold too_long_run; simpl; congruence.
    + destruct (send_parts send_message max_length total_parts t1
                  (i + 1) rest) as [[runs' e''] t''] eqn:En.
      inversion H; subst. apply loop_ok_cons; eauto.
      repeat split; simpl; unfold too_long_run; simpl; congruence.
Qed.

(** The long path of [_send_long_message] is the loop over the parts. *)
Lemma send_long_message_long t text max_length :
  len text > max_length ->
  exists runs,
    d_sent (_send_long_message send_message t text max_length) = InParts runs
    /\ loop_ok max_length
         (Z.of_nat (length (split_parts text max_length))) 1
         (split_parts text max_length) runs
         (d_raised (_send_long_message send_message t text max_length)).
Proof.
  intros Hlen. unfold _send_long_message.
  destruct (len text <=? max_length) eqn:E; [lia|].
  destruct (send_parts send_message max_length
              (Z.of_nat (length (split_parts text max_length))) t 1
              (split_parts text max_length)) as [[runs e] t1] eqn:Es.
  exists runs. split; [reflexivity|]. simpl.
  eapply send_parts_spec. exact Es.
Qed.

End SendingLoop.

Lemma lookup_map {A B} (f : A -> B) (l : list A) (k : nat) :
  List.map f l !! k = option_map f (l !! k).
Proof.
  revert k. induction l as [|a l IH]; intros [|k]; simpl; auto.
Qed.



(** ** Where the sending stops *)

Section Stopping.

Context {T : Type}.
Variable send_message : T -> str -> option exn * T.





End Stopping.

Lemma last_run_at (runs : list part_run) (k : nat) (run : part_run) :
  runs !! k = Some run -> length runs = S k -> last_run runs run.
Proof.
  intros Hk Hl. exists (take k runs).
  rewrite <- (take_drop_middle runs k run Hk) at 1.
  now rewrite drop_ge by lia.
Qed.


(** When no send raises the too-long error, the loop makes one call per
    part and nothing else. *)
Lemma plain_loop_calls max_length total_parts i parts runs e :
  loop_ok max_length total_parts i parts runs e ->
  (forall run, In run runs -> too_long_run run = false) ->
  e = None
  /\ List.map a_text (concat (List.map attempts_of_run runs))
     = imap (fun k part => part_message total_parts (i + Z.of_nat k) part)
         parts.
Proof.
  intros (H1 & H2 & H3 & H4 & H5) Hall.
  assert (He : e = None).
  { destruct (Nat.eq_dec (length runs) 0%nat) as [E|E].
    - apply H5. now destruct runs.
    - destruct (lookup_lt_is_Some_2 runs (length runs - 1)%nat)
        as [run Hrun]; [lia|].
      apply (H4 _ run Hrun); [|lia].
      apply Hall. apply list_elem_of_In, list_elem_of_lookup. eauto. }
  split; [exact He|].
  assert (Hcalls : concat (List.map attempts_of_run runs)
                   = List.map p_send runs).
  { clear H2 H3 H4 H5. induction runs as [|r rs IH]; [reflexivity|].
    inversion H1 as [|? ? [_ [Hn _]] Hrs]; subst. simpl.
    rewrite (Hn (Hall r (or_introl eq_refl))). simpl. f_equal.
    apply IH; auto. intros run Hin. apply Hall. now right. }
  rewrite Hcalls, List.map_map. apply list_eq. intros k.
  rewrite lookup_map, list_lookup_imap.
  destruct (runs !! k) as [run|] eqn:Ek; simpl.
  - destruct (H2 k run Ek) as [part [Hpart [_ Ht]]].
    rewrite Hpart. simpl. now rewrite Ht.
  - apply lookup_ge_None in Ek. rewrite (H3 He) in Ek.
    apply lookup_ge_None in Ek. now rewrite Ek.
Qed.

(** ** The claims on delivery *)

(** C9. A text of at most [max_length] characters, the length [max_length]
    included, is sent by exactly one [send_message] call whose text is the
    text itself, without marker; what that call raises leaves
    [_send_long_message]. *)
Theorem short_circuit {T} (send_message : T -> str -> option exn * T)
  (t : T) (text : str) (max_length : Z) :
  len text <= max_length ->
  let d := _send_long_message send_message t text max_length in
  d_sent d = Direct {| a_text := text; a_raised := fst (send_message t text) |}
  /\ List.map a_text (attempts_of (d_sent d)) = [text]
  /\ d_raised d = fst (send_message t text)
  /\ d_transport d = snd (send_message t text).
Proof.
  intros Hlen. unfold _send_long_message.
  destruct (len text <=? max_length) eqn:E; [|lia].
  destruct (send_message t text) as [r t1]. simpl. auto.
Qed.

Lemma short_circuit_witness :
  let d := _send_long_message telegram_send [] (lit "abcd") 4 in
  d_sent d = Direct {| a_text := lit "abcd";
                       a_raised := fst (telegram_send [] (lit "abcd")) |}
  /\ List.map a_text (attempts_of (d_sent d)) = [lit "abcd"]
  /\ d_raised d = fst (telegram_send [] (lit "abcd"))
  /\ d_transport d = snd (telegram_send [] (lit "abcd")).
Proof.
  apply (short_circuit telegram_send [] (lit "abcd") 4).
  vm_compute. discriminate.
Defined.

(** C6, as amended.  A pass whose reply is empty or [None] sends nothing,
    because [_process_messages] calls the splitter only for a non-empty
    response and so does not call it.  [_send_long_message] itself, given
    the empty text, makes one [send_message] call with the empty text when
    [max_length] is not negative, and none when it is negative. *)
Theorem empty_delivery {T} (send_message : T -> str -> option exn * T)
  (t : T) (max_length : Z) :
  deliver_response send_message t (Some []) = None
  /\ deliver_response send_message t None = None
  /\ attempts_of (d_sent (_send_long_message send_message t [] max_length))
     = if max_length <? 0 then []
       else [{| a_text := []; a_raised := fst (send_message t []) |}].
Proof.
  repeat split. unfold _send_long_message. change (len []) with 0.
  destruct (max_length <? 0) eqn:E.
  - destruct (0 <=? max_length) eqn:E'; [lia|].
    unfold split_parts. cbn.
    now destruct (len [] + len [] + 2 >? max_length).
  - destruct (0 <=? max_length) eqn:E'; [|lia].
    now destruct (send_message t []).
Qed.

(** C6 as stated fails: with the default limit the empty text is handed to
    [send_message], which the transport refuses. *)
Lemma empty_delivery_fails :
  attempts_of (d_sent (_send_long_message telegram_send [] [] 4000))
  = [{| a_text := [];
        a_raised := Some (BadRequest (lit "Message text is empty")) |}]
  /\ d_raised (_send_long_message telegram_send [] [] 4000)
     = Some (BadRequest (lit "Message text is empty")).
Proof. split; reflexivity. Qed.

(** A short reply goes out once, unmarked. *)
Example short_reply :
  deliver_response telegram_send [] (Some (lit "hi there"))
  = Some {| d_sent := Direct {| a_text := lit "hi there"; a_raised := None |};
            d_raised := None;
            d_transport := [lit "hi there"] |}.
Proof. reflexivity. Qed.

(** C8, as amended.  On the long path the first message sent for the part
    at position [i] (counted from 1) of [N] parts is ["Part i/N:\n\n"]
    followed by the part when [N > 1], and the part alone when [N = 1]; these
    messages go out in the order of the parts, and a call that ends without
    an exception has sent one for every part.  When no send raises the
    too-long error, the call ends without an exception and these messages
    are all the [send_message] calls: the [i]-th call is the message of the
    [i]-th part, for every [i] from 1 to [N].  A call ends with an exception
    only in the run of a part whose send raised the too-long error. *)
Theorem marker_correctness {T} (send_message : T -> str -> option exn * T)
  (t : T) (text : str) (max_length : Z) :
  len text > max_length ->
  let parts := split_parts text max_length in
  let N := Z.of_nat (length parts) in
  let d := _send_long_message send_message t text max_length in
  exists runs,
    d_sent d = InParts runs
    /\ (forall k run, runs !! k = Some run ->
        exists part, parts !! k = Some part
          /\ (N > 1 ->
              a_text (p_send run)
              = lit "Part " ++ str_of_int (Z.of_nat k + 1) ++ lit "/"
                  ++ str_of_int N ++ lit ":" ++ [newline; newline] ++ part)
          /\ (N = 1 -> a_text (p_send run) = part))
    /\ (d_raised d = None -> length runs = length parts)
    /\ ((forall run, In run runs -> too_long_run run = false) ->
        d_raised d = None
        /\ List.map a_text (attempts_of (d_sent d))
           = imap (fun k part =>
                     if N >? 1
                     then lit "Part " ++ str_of_int (Z.of_nat k + 1) ++ lit "/"
                            ++ str_of_int N ++ lit ":" ++ [newline; newline]
                            ++ part
                     else part) parts)
    /\ (forall x, d_raised d = Some x ->
        exists run, last_run runs run /\ too_long_run run = true).
Proof.
  intros Hlen parts N d.
  destruct (send_long_message_long send_message t text max_length Hlen)
    as [runs [Hs Hloop]].
  pose proof Hloop as (H1 & H2 & H3 & H4 & H5).
  fold d in Hs, H3, H4, H5.
  exists runs. split; [exact Hs|]. split; [|split; [exact H3|split]].
  - intros k run Hk. destruct (H2 k run Hk) as [part [Hp [_ Ht]]].
    exists part. split; [exact Hp|].
    fold parts in Ht. fold N in Ht. unfold part_message, header in Ht.
    replace (1 + Z.of_nat k) with (Z.of_nat k + 1) in Ht by lia.
    split; intros HN.
    + destruct (N >? 1) eqn:E; [|lia]. rewrite Ht.
      now rewrite <- !app_assoc.
    + destruct (N >? 1) eqn:E; [lia | exact Ht].
  - intros Hall.
    destruct (plain_loop_calls _ _ _ _ _ _ Hloop Hall) as [He Hcalls].
    split; [exact He|]. rewrite Hs. simpl. rewrite Hcalls.
    apply imap_ext. intros k part _. simpl.
    unfold part_message, header. fold parts. fold N.
    replace (1 + Z.of_nat k) with (Z.of_nat k + 1) by lia.
    destruct (N >? 1); [|reflexivity]. now rewrite <- !app_assoc.
  - intros x Hx.
    destruct (Nat.eq_dec (length runs) 0%nat) as [E|E].
    + rewrite H5 in Hx by (now destruct runs). discriminate.
    + destruct (lookup_lt_is_Some_2 runs (length runs - 1)%nat)
        as [run Hrun]; [lia|].
      exists run. split; [apply last_run_at with (length runs - 1)%nat;
                          [exact Hrun | lia]|].
      destruct (too_long_run run) eqn:Etl; [reflexivity|].
      rewrite (H4 _ run Hrun Etl) in Hx by lia. discriminate.
Qed.

Lemma marker_correctness_witness :
  let text := lit "abcd" ++ blank_line ++ lit "ab" in
  exists runs,
    d_sent (_send_long_message telegram_send [] text 4) = InParts runs
    /\ List.map (fun r => a_text (p_send r)) runs
       = [lit "Part 1/2:" ++ blank_line ++ lit "abcd";
          lit "Part 2/2:" ++ blank_line ++ lit "ab"].
Proof.
  destruct (marker_correctness telegram_send []
              (lit "abcd" ++ blank_line ++ lit "ab") 4)
    as [runs [Hs _]]; [reflexivity|].
  exists runs. split; [exact Hs|].
  vm_compute in Hs. inversion Hs. reflexivity.
Defined.

(** C8 as stated fails: when the marked first part is refused as too long,
    its four windows are sent before the second part, so the second message
    sent is the window ["Part"], not ["Part 2/2:\n\nab"]. *)
Lemma marker_position_fails :
  let text := lit "abcd" ++ blank_line ++ lit "ab" in
  let d := _send_long_message narrow_send [] text 4 in
  len text > 4
  /\ split_parts text 4 = [lit "abcd"; lit "ab"]
  /\ List.map (fun a => (a_text a, a_raised a)) (attempts_of (d_sent d))
     = [(lit "Part 1/2:" ++ blank_line ++ lit "abcd",
         Some (BadRequest (lit "Message is too long")));
        (lit "Part", None); (lit " 1/2", None);
        (lit ":" ++ blank_line ++ lit "a", None); (lit "bcd", None);
        (lit "Part 2/2:" ++ blank_line ++ lit "ab", None)]
  /\ List.map a_text (attempts_of (d_sent d)) !! 1%nat
     <> Some (lit "Part 2/2:" ++ blank_line ++ lit "ab")
  /\ d_raised d = None.
Proof. repeat split; try reflexivity. discriminate. Qed.

(** C7, as amended.  When the send of a part raises an error other than the
    too-long error, that text is not sent again, the error is printed with
    the part number and is not passed on to the caller, and the loop goes
    on: the next part, if there is one, is sent, and if the part was the
    last one reached the call returns normally.  A call in which no send
    raises the too-long error sends every part once and returns normally. *)
Theorem failure_containment {T} (send_message : T -> str -> option exn * T)
  (t : T) (text : str) (max_length : Z) :
  len text > max_length ->
  let parts := split_parts text max_length in
  let N := Z.of_nat (length parts) in
  let d := _send_long_message send_message t text max_length in
  exists runs,
    d_sent d = InParts runs
    /\ (forall k run e,
        runs !! k = Some run ->
        a_raised (p_send run) = Some e -> is_too_long e = false ->
        p_subparts run = []
        /\ p_printed run = Some (error_line (Z.of_nat k + 1) e)
        /\ (forall part', parts !! S k = Some part' ->
            exists run', runs !! S k = Some run'
              /\ a_text (p_send run') = part_message N (Z.of_nat k + 2) part')
        /\ (length runs = S k -> d_raised d = None))
    /\ ((forall run, In run runs -> too_long_run run = false) ->
        d_raised d = None
        /\ part_texts (d_sent d)
           = imap (fun k part => part_message N (Z.of_nat k + 1) part) parts
        /\ Forall (fun run => p_subparts run = []) runs).
Proof.
  intros Hlen parts N d.
  destruct (send_long_message_long send_message t text max_length Hlen)
    as [runs [Hs (H1 & H2 & H3 & H4 & H5)]].
  fold parts in H2, H3. fold N in H2. fold d in Hs, H3, H4, H5.
  exists runs. split; [exact Hs|]. split.
  - intros k run e Hk He Htl.
    assert (Hf : too_long_run run = false)
      by (unfold too_long_run; now rewrite He).
    assert (Hok : run_ok max_length run).
    { eapply Forall_forall in H1; [exact H1|].
      apply list_elem_of_lookup. eauto. }
    destruct Hok as [Hp [Hn _]].
    destruct (H2 k run Hk) as [part [Hpart [Hi _]]].
    repeat split.
    + now apply Hn.
    + rewrite Hp, He, Hi. simpl. do 2 f_equal. lia.
    + intros part' Hpart'.
      destruct (decide (length runs = S k)) as [Hlast|Hmore].
      * specialize (H3 (H4 k run Hk Hf Hlast)).
        apply lookup_lt_Some in Hpart'. lia.
      * apply lookup_lt_Some in Hk.
        destruct (lookup_lt_is_Some_2 runs (S k)) as [run' Hrun']; [lia|].
        exists run'. split; [exact Hrun'|].
        destruct (H2 (S k) run' Hrun') as [p [Hp' [_ Ht]]].
        assert (p = part') by congruence. subst p.
        rewrite Ht. f_equal. lia.
    + intros Hlast. now apply (H4 k run Hk Hf).
  - intros Hall.
    assert (He : d_raised d = None).
    { destruct (Nat.eq_dec (length runs) 0%nat) as [E|E].
      - apply H5. now destruct runs.
      - destruct (lookup_lt_is_Some_2 runs (length runs - 1)%nat)
          as [run Hrun]; [lia|].
        apply (H4 _ run Hrun); [|lia].
        apply Hall. apply list_elem_of_In, list_elem_of_lookup. eauto. }
    split; [exact He|]. split.
    + rewrite Hs. simpl. apply list_eq. intros k.
      rewrite lookup_map, list_lookup_imap.
      destruct (runs !! k) as [run|] eqn:Ek; simpl.
      * destruct (H2 k run Ek) as [part [Hpart [_ Ht]]].
        rewrite Hpart. simpl. rewrite Ht. do 2 f_equal. lia.
      * apply lookup_ge_None in Ek. rewrite (H3 He) in Ek.
        apply lookup_ge_None in Ek. now rewrite Ek.
    + apply Forall_forall. intros run Hin.
      pose proof (proj1 (Forall_forall _ _) H1 run Hin) as [_ [Hn _]].
      apply Hn, Hall. now apply list_elem_of_In.
Qed.

Lemma failure_containment_witness :
  let text := lit "abcd" ++ blank_line ++ lit "ab" in
  let d := _send_long_message offline_send O text 4 in
  exists runs,
    d_sent d = InParts runs
    /\ d_raised d = None
    /\ List.map (fun r => a_text (p_send r)) runs
       = [lit "Part 1/2:" ++ blank_line ++ lit "abcd";
          lit "Part 2/2:" ++ blank_line ++ lit "ab"].
Proof.
  destruct (failure_containment offline_send O
              (lit "abcd" ++ blank_line ++ lit "ab") 4)
    as [runs [Hs [_ Hall]]]; [reflexivity|].
  exists runs. split; [exact Hs|].
  vm_compute in Hs. injection Hs as Hruns. subst runs.
  split; [|reflexivity].
  apply Hall. intros run [<-|[<-|[]]]; reflexivity.
Defined.

(** C7 as stated fails: both parts fail with a network error, and the call
    returns normally; the caller is handed no error. *)
Lemma failure_not_surfaced :
  let text := lit "abcd" ++ blank_line ++ lit "ab" in
  let d := _send_long_message offline_send O text 4 in
  d_raised d = None
  /\ attempts_of (d_sent d)
     = [{| a_text := lit "Part 1/2:" ++ blank_line ++ lit "abcd";
           a_raised := Some (OtherException (lit "Timed out")) |};
        {| a_text := lit "Part 2/2:" ++ blank_line ++ lit "ab";
           a_raised := Some (OtherException (lit "Timed out")) |}]
  /\ printed_of (d_sent d)
     = [lit "Error sending message part 1: Timed out";
        lit "Error sending message part 2: Timed out"].
Proof. repeat split; reflexivity. Qed.




(** The sends of the windows stop at the first one that raises: here the
    second window is refused, the third is never sent and the exception
    leaves the call. *)
Example fallback_stops_at_failing_window :
  let send := fun (t : list str) (m : str) =>
                if len m >? 4
                then (Some (BadRequest (lit "Message is too long")), t)
                else if bool_decide (m = lit "cc")
                     then (Some (OtherException (lit "Timed out")), t)
                     else (None, t ++ [m]) in
  let d := _send_long_message send [] (lit "aaccee") 2 in
  List.map (fun a => (a_text a, a_raised a)) (attempts_of (d_sent d))
  = [(lit "aaccee", Some (BadRequest (lit "Message is too long")));
     (lit "aa", None);
     (lit "cc", Some (OtherException (lit "Timed out")))]
  /\ d_raised d = Some (OtherException (lit "Timed out"))
  /\ d_transport d = [lit "aa"].
Proof. repeat split; reflexivity. Qed.

(** With the limit 0 the handler cannot cut the text: [range] refuses the
    zero step and the [ValueError] leaves the call. *)
Example oversize_zero_limit :
  let send := fun (t : nat) (m : str) =>
                (Some (BadRequest (lit "Message is too long")), S t) in
  d_raised (_send_long_message send O (lit "abc") 0)
  = Some (OtherException (lit "range() arg 3 must not be zero")).
Proof. reflexivity. Qed.


(** ** The scheduler: one pass per user *)

Lemma active_passes_app user_id (a b : list (string * phase)) :
  active_passes user_id (a ++ b)
  = (active_passes user_id a + active_passes user_id b)%nat.
Proof.
  induction a as [|[u p] a IH]; simpl; [reflexivity|]. rewrite IH. lia.
Qed.

Lemma active_passes_insert user_id (ts : list (string * phase)) :
  forall i owner p p',
  ts !! i = Some (owner, p) ->
  (active_passes user_id (<[i := (owner, p')]> ts) + counts_for user_id owner p
   = active_passes user_id ts + counts_for user_id owner p')%nat.
Proof.
  induction ts as [|[u q] ts IH]; intros [|i] owner p p' H; simpl in H;
    try discriminate.
  - inversion H; subst. simpl. unfold counts_for. lia.
  - simpl. specialize (IH i owner p p' H). lia.
Qed.

Lemma active_passes_owner (ts : list (string * phase)) i owner p :
  ts !! i = Some (owner, p) -> is_done p = false ->
  (1 <= active_passes owner ts)%nat.
Proof.
  intros Hi Hp.
  pose proof (active_passes_insert owner ts i owner p Done Hi) as H.
  unfold counts_for in H. rewrite Hp in H. simpl in H.
  rewrite bool_decide_eq_true_2 in H by reflexivity. simpl in H. lia.
Qed.

Lemma in_flight_spawn users ts user_id :
  in_flight_exact users ts -> user_id ∉ users ->
  in_flight_exact ({[user_id]} ∪ users) (ts ++ [(user_id, Created)]).
Proof.
  intros Hinv Hnot w. rewrite active_passes_app, (Hinv w). simpl.
  repeat case_bool_decide; simpl; try lia; membership_clash.
Qed.

Lemma in_flight_phase users ts i owner p p' :
  in_flight_exact users ts -> ts !! i = Some (owner, p) ->
  is_done p = false -> is_done p' = false ->
  in_flight_exact users (<[i := (owner, p')]> ts).
Proof.
  intros Hinv Hi Hp Hp' w.
  pose proof (active_passes_insert w ts i owner p p' Hi) as H.
  unfold counts_for in H. rewrite Hp, Hp' in H. rewrite <- (Hinv w). lia.
Qed.

Lemma in_flight_finish users ts i owner p :
  in_flight_exact users ts -> ts !! i = Some (owner, p) ->
  is_done p = false ->
  in_flight_exact (users ∖ {[owner]}) (<[i := (owner, Done)]> ts).
Proof.
  intros Hinv Hi Hp w.
  pose proof (active_passes_insert w ts i owner p Done Hi) as H.
  pose proof (active_passes_owner ts i owner p Hi Hp) as Hown.
  unfold counts_for in H. rewrite Hp in H. simpl in H.
  rewrite andb_false_r, andb_true_r in H. specialize (Hinv w).
  repeat case_bool_decide; simplify_eq; simpl in *; try lia;
    membership_clash.
Qed.

Lemma in_flight_respawn users ts i owner p :
  in_flight_exact users ts -> ts !! i = Some (owner, p) ->
  is_done p = false ->
  in_flight_exact ({[owner]} ∪ users ∖ {[owner]})
    (<[i := (owner, Done)]> (ts ++ [(owner, Created)])).
Proof.
  intros Hinv Hi Hp w.
  assert (Hi' : (ts ++ [(owner, Created)]) !! i = Some (owner, p))
    by (rewrite lookup_app_l; [exact Hi | now apply lookup_lt_Some in Hi]).
  pose proof (active_passes_insert w _ i owner p Done Hi') as H.
  unfold counts_for in H. rewrite Hp in H. simpl in H.
  rewrite andb_false_r, andb_true_r, active_passes_app in H. simpl in H.
  pose proof (active_passes_owner ts i owner p Hi Hp) as Hown.
  specialize (Hinv w).
  repeat case_bool_decide; simplify_eq; simpl in *; try lia;
    membership_clash.
Qed.

Lemma in_flight_complete s i owner p :
  in_flight_exact (processing_users s) (tasks s) ->
  tasks s !! i = Some (owner, p) -> is_done p = false ->
  in_flight_exact (processing_users (complete i owner s))
    (tasks (complete i owner s)).
Proof.
  intros Hinv Hi Hp. unfold complete, finally_block. simpl.
  destruct (pending_of owner (message_queue s) >? 0); simpl.
  - now apply in_flight_respawn with p.
  - now apply in_flight_finish with p.
Qed.

Lemma in_flight_step l s s' :
  in_flight_exact (processing_users s) (tasks s) -> step l s = Some s' ->
  in_flight_exact (processing_users s') (tasks s').
Proof.
  intros Hinv Hstep.
  destruct l as [u m|u|i|i c|i r|i|i|i]; simpl in Hstep.
  - inversion Hstep; subst. unfold handle_message. simpl.
    case_bool_decide; simpl; [now apply in_flight_spawn | exact Hinv].
  - inversion Hstep; subst. unfold handle_document.
    case_bool_decide; simpl; [now apply in_flight_spawn | exact Hinv].
  - destruct (tasks s !! i) as [[u []]|] eqn:E; inversion Hstep; subst.
    simpl. now apply in_flight_phase with Created.
  - destruct (tasks s !! i) as [[u []]|] eqn:E; inversion Hstep; subst.
    exact Hinv.
  - destruct (tasks s !! i) as [[u []]|] eqn:E; try discriminate.
    destruct (response_truthy r); inversion Hstep; subst.
    + simpl. now apply in_flight_phase with Processing.
    + now apply in_flight_complete with Processing.
  - destruct (tasks s !! i) as [[u []]|] eqn:E; inversion Hstep; subst.
    now apply in_flight_complete with Processing.
  - destruct (tasks s !! i) as [[u []]|] eqn:E; inversion Hstep; subst.
    now apply in_flight_complete with Sending.
  - destruct (tasks s !! i) as [[u []]|] eqn:E; inversion Hstep; subst.
    now apply in_flight_complete with Sending.
Qed.

Lemma in_flight_reachable q s :
  reachable_from (initial q) s ->
  in_flight_exact (processing_users s) (tasks s).
Proof.
  induction 1 as [|s l s' _ IH Hstep].
  - intros w. simpl. now case_bool_decide.
  - now apply in_flight_step with l s.
Qed.

Lemma run_reachable ls :
  forall s0 s, run ls s0 = Some s ->
  forall s00, reachable_from s00 s0 -> reachable_from s00 s.
Proof.
  induction ls as [|l ls IH]; intros s0 s H s00 Hr; simpl in H.
  - now inversion H; subst.
  - destruct (step l s0) as [s1|] eqn:E; [|discriminate].
    apply (IH s1 s H). now apply reach_step with s0 l.
Qed.

(** C1. In every state the event loop can reach from the bot after
    [__init__], whatever the interleaving of inbound messages, uploads and
    the pieces of the passes, no user has more than one pass that is created
    and not finished, and a user has one exactly when the user is in
    [processing_users].  [handle_message] creates a pass only when the user
    is not in [processing_users], and inserts the user before it does; a
    completing pass creates its successor only after it has inserted the
    user again. *)
Theorem single_flight (q : list queued_message) (s : state) :
  reachable_from (initial q) s ->
  (forall user_id,
      (active_passes user_id (tasks s) <= 1)%nat
      /\ ((user_id ∈ processing_users s)
          <-> active_passes user_id (tasks s) = 1%nat))
  /\ (forall user_id message_text,
      let s' := handle_message user_id message_text s in
      if bool_decide (user_id ∈ processing_users s)
      then tasks s' = tasks s
           /\ effects s' = effects s ++ [AddMessage user_id]
      else tasks s' = tasks s ++ [(user_id, Created)]
           /\ (user_id ∈ processing_users s')
           /\ effects s'
              = effects s ++ [AddMessage user_id; Add user_id;
                              CreateTask user_id])
  /\ (forall i user_id,
      let s' := complete i user_id s in
      let n := pending_of user_id (message_queue s) in
      (tasks s' = <[i := (user_id, Done)]> (tasks s)
       /\ (user_id ∉ processing_users s')
       /\ effects s'
          = effects s ++ [Discard user_id; CountDocuments user_id n])
      \/ (tasks s' = <[i := (user_id, Done)]> (tasks s ++ [(user_id, Created)])
          /\ (user_id ∈ processing_users s')
          /\ effects s'
             = effects s ++ [Discard user_id; CountDocuments user_id n;
                             Add user_id; CreateTask user_id])).
Proof.
  intros Hreach. split; [|split].
  - intros u. pose proof (in_flight_reachable q s Hreach u) as H.
    rewrite H. case_bool_decide; split; try lia; split; intros; try lia;
      try assumption; contradiction.
  - intros u m s'. unfold s', handle_message. simpl.
    repeat case_bool_decide; try contradiction; simpl.
    + now split.
    + split; [reflexivity|]. split; [|now rewrite <- !app_assoc].
      apply elem_of_union_l. now apply elem_of_singleton.
  - intros i u s' n. unfold s', complete, finally_block. simpl. fold n.
    destruct (n >? 0); simpl; [right|left].
    + split; [reflexivity|]. split; [|now rewrite <- !app_assoc].
      apply elem_of_union_l. now apply elem_of_singleton.
    + split; [reflexivity|]. split; [|now rewrite <- !app_assoc].
      intros Hin. apply elem_of_difference in Hin as [_ Hin].
      apply Hin. now apply elem_of_singleton.
Qed.

Lemma single_flight_witness :
  exists s,
    run race_schedule (initial []) = Some s
    /\ tasks s = [("7"%string, Done); ("7"%string, Created)]
    /\ (active_passes "7" (tasks s) <= 1)%nat.
Proof.
  destruct (run race_schedule (initial [])) as [s|] eqn:E;
    [|vm_compute in E; discriminate].
  exists s. split; [reflexivity|]. split.
  - vm_compute in E. inversion E. reflexivity.
  - apply (single_flight [] s).
    apply (run_reachable race_schedule (initial []) s E). constructor.
Defined.

(** ** The scheduler: no backlog without a pass *)

Lemma pending_of_app user_id q m :
  pending_of user_id (q ++ [m])
  = pending_of user_id q + (if unprocessed_of user_id m then 1 else 0).
Proof.
  unfold pending_of. rewrite List.filter_app, length_app. simpl.
  destruct (unprocessed_of user_id m); simpl; lia.
Qed.

Lemma filter_map_le {A} (g : A -> bool) (f : A -> A) (l : list A) :
  (forall a, g (f a) = true -> g a = true) ->
  (length (List.filter g (List.map f l)) <= length (List.filter g l))%nat.
Proof.
  intros Hgf. induction l as [|a l IH]; simpl; [lia|].
  destruct (g (f a)) eqn:E.
  - rewrite (Hgf a E). simpl. lia.
  - destruct (g a); simpl; lia.
Qed.

(** The Batch Processor only takes messages away from the backlog. *)
Lemma pending_of_mark_processed user_id owner claimed s :
  pending_of user_id (message_queue (mark_processed owner claimed s))
  <= pending_of user_id (message_queue s).
Proof.
  unfold pending_of, mark_processed. simpl.
  apply Nat2Z.inj_le, filter_map_le. intros m.
  destruct (unprocessed_of owner m && claimed m); [|auto].
  unfold unprocessed_of. simpl. now rewrite andb_false_r.
Qed.

Lemma backlog_covered_complete user_id s i owner :
  backlog_covered user_id s -> backlog_covered user_id (complete i owner s).
Proof.
  unfold backlog_covered, complete, finally_block. simpl.
  destruct (pending_of owner (message_queue s) >? 0) eqn:E; simpl;
    intros H Hpos.
  - destruct (decide (user_id = owner)) as [->|Hne].
    + apply elem_of_union_l. now apply elem_of_singleton.
    + apply elem_of_union_r, elem_of_difference.
      split; [auto|]. now rewrite elem_of_singleton.
  - destruct (decide (user_id = owner)) as [->|Hne]; [lia|].
    apply elem_of_difference. split; [auto|]. now rewrite elem_of_singleton.
Qed.

Lemma backlog_covered_step user_id l s s' :
  backlog_covered user_id s -> step l s = Some s' ->
  backlog_covered user_id s'.
Proof.
  intros Hinv Hstep.
  destruct l as [u m|u|i|i c|i r|i|i|i]; simpl in Hstep.
  - inversion Hstep; subst. unfold backlog_covered, handle_message. simpl.
    destruct (bool_decide (u ∉ processing_users s)) eqn:Eu; simpl;
      rewrite pending_of_app; unfold unprocessed_of; simpl;
      rewrite andb_true_r; intros Hpos.
    + destruct (decide (u = user_id)) as [->|Hne].
      * apply elem_of_union_l. now apply elem_of_singleton.
      * rewrite bool_decide_eq_false_2 in Hpos by exact Hne.
        apply elem_of_union_r, Hinv. lia.
    + apply bool_decide_eq_false in Eu.
      destruct (decide (u = user_id)) as [->|Hne].
      * destruct (decide (user_id ∈ processing_users s)); [assumption|].
        contradiction.
      * rewrite bool_decide_eq_false_2 in Hpos by exact Hne.
        apply Hinv. lia.
  - inversion Hstep; subst. unfold backlog_covered, handle_document.
    case_bool_decide; simpl; intros Hpos; [|now apply Hinv].
    apply elem_of_union_r. now apply Hinv.
  - destruct (tasks s !! i) as [[u []]|] eqn:E; inversion Hstep; subst.
    exact Hinv.
  - destruct (tasks s !! i) as [[u []]|] eqn:E; inversion Hstep; subst.
    intros Hpos. apply Hinv.
    pose proof (pending_of_mark_processed user_id u c s). lia.
  - destruct (tasks s !! i) as [[u []]|] eqn:E; try discriminate.
    destruct (response_truthy r); inversion Hstep; subst.
    + exact Hinv.
    + now apply backlog_covered_complete.
  - destruct (tasks s !! i) as [[u []]|] eqn:E; inversion Hstep; subst.
    now apply backlog_covered_complete.
  - destruct (tasks s !! i) as [[u []]|] eqn:E; inversion Hstep; subst.
    now apply backlog_covered_complete.
  - destruct (tasks s !! i) as [[u []]|] eqn:E; inversion Hstep; subst.
    now apply backlog_covered_complete.
Qed.

Lemma backlog_covered_reachable user_id q s :
  pending_of user_id q = 0 -> reachable_from (initial q) s ->
  backlog_covered user_id s.
Proof.
  intros Hq. induction 1 as [|s l s' _ IH Hstep].
  - unfold backlog_covered. simpl. lia.
  - now apply backlog_covered_step with l s.
Qed.

(** C2.  A pass that leaves its [try], by return or by exception of
    [process_message_queue] or of the delivery, runs the same completion: it
    removes the user from [processing_users], then counts the user's
    unprocessed messages, and when the count is positive inserts the user
    again and creates a new pass.  So after the completion a user with
    unprocessed messages has a new pass, and in every reachable state of a
    bot started without backlog for the user, unprocessed messages of the
    user come with exactly one active pass of the user. *)
Theorem close_then_recheck (q : list queued_message) (s : state) (i : nat)
  (user_id : string) :
  let n := pending_of user_id (message_queue s) in
  let s' := complete i user_id s in
  effects s'
  = effects s ++ Discard user_id :: CountDocuments user_id n
      :: (if n >? 0 then [Add user_id; CreateTask user_id] else [])
  /\ processing_users s'
     = (if n >? 0 then {[user_id]} ∪ processing_users s ∖ {[user_id]}
        else processing_users s ∖ {[user_id]})
  /\ tasks s'
     = <[i := (user_id, Done)]>
         (if n >? 0 then tasks s ++ [(user_id, Created)] else tasks s)
  /\ message_queue s' = message_queue s
  /\ (tasks s !! i = Some (user_id, Processing) ->
      step (ProcessRaised i) s = Some s'
      /\ step (ProcessReturned i None) s = Some s'
      /\ step (ProcessReturned i (Some [])) s = Some s')
  /\ (tasks s !! i = Some (user_id, Sending) ->
      step (SendReturned i) s = Some s' /\ step (SendRaised i) s = Some s')
  /\ (forall p, tasks s !! i = Some (user_id, p) -> 0 < n ->
      (user_id ∈ processing_users s')
      /\ tasks s' !! length (tasks s) = Some (user_id, Created))
  /\ (pending_of user_id q = 0 -> reachable_from (initial q) s -> 0 < n ->
      (user_id ∈ processing_users s)
      /\ active_passes user_id (tasks s) = 1%nat).
Proof.
  intros n s'. unfold s', complete, finally_block. simpl. fold n.
  repeat split.
  - destruct (n >? 0); simpl; now rewrite <- !app_assoc.
  - now destruct (n >? 0).
  - now destruct (n >? 0).
  - now destruct (n >? 0).
  - now rewrite H.
  - now rewrite H.
  - now rewrite H.
  - now rewrite H.
  - now rewrite H.
  - destruct (n >? 0) eqn:E; [|lia]. simpl.
    apply elem_of_union_l. now apply elem_of_singleton.
  - destruct (n >? 0) eqn:E; [|lia]. simpl.
    apply lookup_lt_Some in H.
    rewrite list_lookup_insert_ne by lia.
    rewrite lookup_app_r by lia. now rewrite Nat.sub_diag.
  - now apply (backlog_covered_reachable user_id q s).
  - pose proof (in_flight_reachable q s H0 user_id) as Hin.
    rewrite Hin. rewrite bool_decide_eq_true_2; [reflexivity|].
    now apply (backlog_covered_reachable user_id q s).
Qed.

Lemma close_then_recheck_witness :
  exists s,
    run (take 5 race_schedule) (initial []) = Some s
    /\ tasks s !! O = Some ("7"%string, Sending)
    /\ pending_of "7" (message_queue s) = 1
    /\ step (SendRaised 0) s = Some (complete 0 "7" s)
    /\ tasks (complete 0 "7" s) !! length (tasks s)
       = Some ("7"%string, Created)
    /\ active_passes "7" (tasks s) = 1%nat.
Proof.
  destruct (run (take 5 race_schedule) (initial [])) as [s|] eqn:E;
    [|vm_compute in E; discriminate].
  assert (Ht : tasks s !! O = Some ("7"%string, Sending))
    by (vm_compute in E; inversion E; reflexivity).
  assert (Hn : pending_of "7" (message_queue s) = 1)
    by (vm_compute in E; inversion E; reflexivity).
  destruct (close_then_recheck [] s 0 "7")
    as (_ & _ & _ & _ & _ & Hsend & Hnew & Hreach).
  exists s. repeat split; auto.
  - now apply Hsend.
  - apply (Hnew Sending Ht). lia.
  - apply Hreach; [reflexivity | | lia].
    apply (run_reachable (take 5 race_schedule) (initial []) s E). constructor.
Defined.

(** The race of the spec run to the end: message B, which arrived after the
    claim, gets a second pass, whether the first pass ends normally or the
    Batch Processor raises. *)
Example race_window :
  option_map (fun s => (tasks s, effects s, pending_of "7" (message_queue s)))
    (run race_schedule (initial []))
  = Some ([("7"%string, Done); ("7"%string, Created)],
          [AddMessage "7"; Add "7"; CreateTask "7"; AddMessage "7";
           Discard "7"; CountDocuments "7" 1; Add "7"; CreateTask "7"],
          1)
  /\ option_map tasks (run failing_schedule (initial []))
     = Some [("7"%string, Done); ("7"%string, Created)].
Proof. split; vm_compute; reflexivity. Qed.

(** * Further properties of the paragraph split *)

Lemma headed_truthy g : headed g -> truthy (join blank_line g) = true.
Proof.
  destruct g as [|p g]; [contradiction|]. simpl. intros Hp.
  destruct g; [|destruct p; [congruence | reflexivity]].
  destruct p; [congruence | reflexivity].
Qed.

Lemma headed_not_nil g : headed g -> g <> [].
Proof. destruct g; [contradiction | discriminate]. Qed.

Lemma headed_snoc g p : headed g -> headed (g ++ [p]).
Proof. destruct g; [contradiction | auto]. Qed.

(** The group a paragraph opens: none when the paragraph is empty. *)
Lemma opened_group p :
  exists g, (g = [] \/ headed g) /\ p = join blank_line g
            /\ List.filter truthy g = List.filter truthy [p].
Proof.
  destruct p as [|c r].
  - exists []. repeat split; auto.
  - exists [c :: r]. repeat split; auto. right. simpl. discriminate.
Qed.

Lemma filter_truthy_opened (a g1 ps : list str) (p : str) :
  List.filter truthy g1 = List.filter truthy [p] ->
  List.filter truthy (a ++ g1 ++ ps) = List.filter truthy (a ++ p :: ps).
Proof.
  intros H. change (p :: ps) with ([p] ++ ps).
  now rewrite !List.filter_app, H.
Qed.

(** The loop on arbitrary paragraphs: the parts are the stripped joins of
    groups of consecutive paragraphs, each group beginning with a non-empty
    paragraph, and the groups hold the non-empty paragraphs in order. *)
Lemma fold_headed_groups max_length ps :
  forall parts cur groups g,
  parts = List.map part_of_group groups -> cur = join blank_line g ->
  g = [] \/ headed g -> Forall headed groups ->
  exists groups',
    flush (fold_left (split_step max_length) ps (parts, cur))
    = List.map part_of_group groups'
    /\ Forall headed groups'
    /\ List.filter truthy (concat groups')
       = List.filter truthy (concat groups ++ g ++ ps).
Proof.
  induction ps as [|p ps IH]; intros parts cur groups g -> -> Hg Hgr.
  - simpl. destruct Hg as [->|Hg].
    + exists groups. simpl. now rewrite !app_nil_r.
    + rewrite (headed_truthy g Hg). exists (groups ++ [g]). repeat split.
      * now rewrite List.map_app.
      * apply Forall_app. split; [exact Hgr | now constructor].
      * rewrite concat_app. simpl. now rewrite !app_nil_r.
  - cbn [fold_left]. unfold split_step at 2.
    destruct (opened_group p) as [g1 [Hg1 [Hp1 Hf1]]].
    destruct (len (join blank_line g) + len p + 2 >? max_length).
    + destruct Hg as [->|Hg].
      * cbn [join truthy].
        destruct (IH (List.map part_of_group groups) p groups g1)
          as [groups' [H1 [H2 H3]]]; auto.
        exists groups'. repeat split; auto.
        rewrite H3. now apply (filter_truthy_opened (concat groups)).
      * rewrite (headed_truthy g Hg).
        destruct (IH (List.map part_of_group groups
                        ++ [strip (join blank_line g)])
                    p (groups ++ [g]) g1) as [groups' [H1 [H2 H3]]]; auto.
        { now rewrite List.map_app. }
        { apply Forall_app. split; [exact Hgr | now constructor]. }
        exists groups'. repeat split; auto.
        rewrite H3, concat_app. simpl. rewrite app_nil_r, <- !app_assoc.
        rewrite !(app_assoc (concat groups)).
        now apply filter_truthy_opened.
    + destruct Hg as [->|Hg].
      * cbn [join truthy app].
        destruct (IH (List.map part_of_group groups) p groups g1)
          as [groups' [H1 [H2 H3]]]; auto.
        exists groups'. repeat split; auto.
        rewrite H3. now apply (filter_truthy_opened (concat groups)).
      * rewrite (headed_truthy g Hg).
        destruct (IH (List.map part_of_group groups)
                    ((join blank_line g ++ blank_line) ++ p) groups (g ++ [p]))
          as [groups' [H1 [H2 H3]]]; auto.
        { rewrite join_snoc by now apply headed_not_nil.
          now rewrite <- app_assoc. }
        { right. now apply headed_snoc. }
        exists groups'. repeat split; auto.
        rewrite H3. now rewrite <- !app_assoc.
Qed.

Lemma split_parts_groups (text : str) (max_length : Z) :
  exists groups : list (list str),
    split_parts text max_length = List.map part_of_group groups
    /\ Forall headed groups
    /\ List.filter truthy (concat groups)
       = List.filter truthy (split_blank_line text).
Proof.
  unfold split_parts.
  destruct (fold_headed_groups max_length (split_blank_line text) [] [] [] [])
    as [groups [H1 [H2 H3]]]; auto.
  exists groups. repeat split; auto.
Qed.


Lemma headed_groups_count (groups : list (list str)) :
  Forall headed groups ->
  (length groups <= length (List.filter truthy (concat groups)))%nat.
Proof.
  induction 1 as [|g groups Hg _ IH]; simpl; [lia|].
  rewrite List.filter_app, length_app.
  destruct g as [|p g]; [contradiction|]. simpl in *.
  destruct p; [congruence|]. simpl. lia.
Qed.

(** X2. There are never more parts than non-empty paragraphs. *)
Theorem parts_at_most_paragraphs (text : str) (max_length : Z) :
  (length (split_parts text max_length)
   <= length (List.filter truthy (split_blank_line text)))%nat.
Proof.
  destruct (split_parts_groups text max_length) as [groups [H1 [H2 H3]]].
  rewrite H1, length_map, <- H3. now apply headed_groups_count.
Qed.

(** The split yields no part exactly when every paragraph of the text is
    empty, that is, when the text is made of blank-line separators only. *)
Lemma split_parts_nil_iff (text : str) (max_length : Z) :
  split_parts text max_length = []
  <-> Forall (fun p => p = []) (split_blank_line text).
Proof.
  destruct (split_parts_groups text max_length) as [groups [H1 [H2 H3]]].
  rewrite H1. split.
  - intros Hnil. destruct groups; [|discriminate]. simpl in H3.
    apply List.Forall_forall. intros p Hin.
    destruct p as [|c r]; [reflexivity|].
    assert (Hf : In (c :: r) (List.filter truthy (split_blank_line text)))
      by (apply filter_In; split; [exact Hin | reflexivity]).
    rewrite <- H3 in Hf. contradiction.
  - intros Hall.
    assert (Hf : List.filter truthy (split_blank_line text) = []).
    { clear H3. induction Hall as [|p ps Hp _ IH]; [reflexivity|].
      subst p. exact IH. }
    pose proof (headed_groups_count groups H2) as Hc.
    rewrite H3, Hf in Hc. destruct groups; [reflexivity | simpl in Hc; lia].
Qed.

(** X3. A text longer than the limit leads to no [send_message] call at all
    exactly when every paragraph of it is empty: a reply made of blank-line
    separators only is dropped without a send and without an error. *)
Theorem blank_text_not_sent {T} (send_message : T -> str -> option exn * T)
  (t : T) (text : str) (max_length : Z) :
  len text > max_length ->
  let d := _send_long_message send_message t text max_length in
  (attempts_of (d_sent d) = [] /\ d_raised d = None)
  <-> Forall (fun p => p = []) (split_blank_line text).
Proof.
  intros Hlen d. rewrite <- (split_parts_nil_iff text max_length).
  destruct (send_long_message_long send_message t text max_length Hlen)
    as [runs [Hs (H1 & H2 & H3 & H4 & H5)]].
  fold d in Hs, H3, H4, H5. rewrite Hs. simpl. split.
  - intros [Hnil He]. specialize (H3 He).
    destruct runs as [|r rs]; [|discriminate].
    destruct (split_parts text max_length); [reflexivity | discriminate].
  - intros Hparts. rewrite Hparts in H2.
    destruct runs as [|r rs]; [split; auto|].
    destruct (H2 O r eq_refl) as [part [Hp _]]. discriminate.
Qed.

Lemma blank_text_not_sent_witness :
  let text := blank_line ++ blank_line ++ blank_line in
  attempts_of (d_sent (_send_long_message telegram_send [] text 4)) = []
  /\ d_raised (_send_long_message telegram_send [] text 4) = None.
Proof.
  apply (blank_text_not_sent telegram_send []
           (blank_line ++ blank_line ++ blank_line) 4); [reflexivity|].
  repeat constructor.
Defined.

Section Oversized.

Variables (max_length : Z) (ps0 : list str).



End Oversized.


Lemma fold_tiny_limit max_length ps :
  max_length <= 1 ->
  forall parts cur,
  flush (fold_left (split_step max_length) ps (parts, cur))
  = parts ++ List.map strip (List.filter truthy (cur :: ps)).
Proof.
  intros HL. induction ps as [|p ps IH]; intros parts cur.
  - simpl. destruct (truthy cur); [reflexivity | now rewrite app_nil_r].
  - cbn [fold_left]. unfold split_step at 2.
    pose proof (len_nonneg cur). pose proof (len_nonneg p).
    destruct (len cur + len p + 2 >? max_length) eqn:E; [|lia].
    rewrite IH. cbn [List.filter].
    destruct (truthy cur); [|reflexivity].
    now rewrite <- app_assoc.
Qed.

(** X5. With a limit of at most 1 no two paragraphs ever share a part: the
    parts are the non-empty paragraphs, each stripped, in order. *)
Theorem tiny_limit_one_paragraph_per_part (text : str) (max_length : Z) :
  max_length <= 1 ->
  split_parts text max_length
  = List.map strip (List.filter truthy (split_blank_line text)).
Proof.
  intros HL. unfold split_parts. now rewrite fold_tiny_limit.
Qed.

Lemma tiny_limit_one_paragraph_per_part_witness :
  split_parts (lit "a" ++ blank_line ++ blank_line ++ lit " b") 1
  = [lit "a"; lit "b"].
Proof.
  rewrite (tiny_limit_one_paragraph_per_part
             (lit "a" ++ blank_line ++ blank_line ++ lit " b") 1); [|lia].
  reflexivity.
Defined.

Section ZeroLimit.

Context {T : Type}.
Variable send_message : T -> str -> option exn * T.

Lemma send_parts_zero total_parts parts :
  forall t i runs e t',
  send_parts send_message 0 total_parts t i parts = (runs, e, t') ->
  forall k run, runs !! k = Some run -> too_long_run run = true ->
  length runs = S k /\ p_subparts run = []
  /\ e = Some (OtherException (lit "range() arg 3 must not be zero")).
Proof.
  induction parts as [|part rest IH]; intros t i runs e t' H k run Hk Htl;
    simpl in H.
  - inversion H; subst. discriminate.
  - destruct (send_message t (part_message total_parts i part)) as [r t1].
    destruct r as [x|].
    + destruct (is_too_long x) eqn:Ex.
      * inversion H; subst.
        destruct k as [|k]; [|discriminate].
        simpl in Hk. inversion Hk; subst. auto.
      * destruct (send_parts send_message 0 total_parts t1 (i + 1) rest)
          as [[runs' e''] t''] eqn:En.
        inversion H; subst. destruct k as [|k]; simpl in Hk.
        -- inversion Hk; subst. unfold too_long_run in Htl. simpl in Htl.
           congruence.
        -- destruct (IH _ _ _ _ _ En k run Hk Htl) as [Hl [Hs He]].
           simpl. auto.
    + destruct (send_parts send_message 0 total_parts t1 (i + 1) rest)
        as [[runs' e''] t''] eqn:En.
      inversion H; subst. destruct k as [|k]; simpl in Hk.
      * inversion Hk; subst. discriminate.
      * destruct (IH _ _ _ _ _ En k run Hk Htl) as [Hl [Hs He]].
        simpl. auto.
Qed.

End ZeroLimit.

(** X6. With [max_length = 0] the fallback cannot cut: the first send that
    raises the too-long error ends the call with the [ValueError] of
    [range], no subpart is sent and the parts that follow are not sent. *)
Theorem zero_limit_fallback_raises {T}
  (send_message : T -> str -> option exn * T) (t : T) (text : str) :
  len text > 0 ->
  let d := _send_long_message send_message t text 0 in
  exists runs,
    d_sent d = InParts runs
    /\ forall k run, runs !! k = Some run -> too_long_run run = true ->
       length runs = S k /\ p_subparts run = []
       /\ d_raised d
          = Some (OtherException (lit "range() arg 3 must not be zero")).
Proof.
  intros Hlen d. unfold d, _send_long_message.
  destruct (len text <=? 0) eqn:E; [lia|].
  destruct (send_parts send_message 0
              (Z.of_nat (length (split_parts text 0))) t 1
              (split_parts text 0)) as [[runs e] t1] eqn:Es.
  exists runs. split; [reflexivity|]. simpl.
  intros k run Hk Htl. eapply send_parts_zero; eauto.
Qed.

Lemma zero_limit_fallback_raises_witness :
  let send := fun (t : nat) (m : str) =>
                (Some (BadRequest (lit "Message is too long")), S t) in
  let d := _send_long_message send O (lit "ab" ++ blank_line ++ lit "c") 0 in
  List.map a_text (attempts_of (d_sent d))
  = [lit "Part 1/2:" ++ blank_line ++ lit "ab"]
  /\ d_raised d = Some (OtherException (lit "range() arg 3 must not be zero")).
Proof.
  intros send d.
  destruct (zero_limit_fallback_raises send O
              (lit "ab" ++ blank_line ++ lit "c")) as [runs [Hs Hz]];
    [reflexivity|].
  fold d in Hs, Hz. vm_compute in Hs. injection Hs as Hruns. subst runs.
  destruct (Hz O _ eq_refl eq_refl) as [_ [_ He]].
  split; [reflexivity | exact He].
Defined.

(** * Further properties of the scheduler *)

(** X7. In a bot started without backlog for a user, whenever that user has
    no unfinished pass, the user has no unprocessed message: the scheduler
    never comes to rest on a backlog. *)
Theorem idle_means_drained (q : list queued_message) (s : state)
  (user_id : string) :
  pending_of user_id q = 0 -> reachable_from (initial q) s ->
  active_passes user_id (tasks s) = 0%nat ->
  pending_of user_id (message_queue s) = 0.
Proof.
  intros Hq Hreach Hidle.
  destruct (Z_le_gt_dec (pending_of user_id (message_queue s)) 0) as [Hle|Hgt].
  - unfold pending_of in *. lia.
  - pose proof (backlog_covered_reachable user_id q s Hq Hreach) as Hcov.
    pose proof (in_flight_reachable q s Hreach user_id) as Hin.
    rewrite bool_decide_eq_true_2 in Hin by (apply Hcov; lia). lia.
Qed.

Lemma idle_means_drained_witness :
  exists s,
    run (race_schedule ++ full_pass 1 None) (initial []) = Some s
    /\ active_passes "7" (tasks s) = 0%nat
    /\ pending_of "7" (message_queue s) = 0.
Proof.
  destruct (run (race_schedule ++ full_pass 1 None) (initial []))
    as [s|] eqn:E; [|vm_compute in E; discriminate].
  assert (Ht : active_passes "7" (tasks s) = 0%nat)
    by (vm_compute in E; inversion E; reflexivity).
  exists s. repeat split; auto.
  apply (idle_means_drained [] s "7"); [reflexivity | | exact Ht].
  apply (run_reachable _ (initial []) s E). constructor.
Defined.

Lemma spawns_paired_app_le n :
  forall a b, (length a <= n)%nat ->
  spawns_paired a = true -> spawns_paired (a ++ b) = spawns_paired b.
Proof.
  induction n as [|n IH]; intros a b Hn Ha.
  - destruct a; [reflexivity | simpl in Hn; lia].
  - destruct a as [|e a]; [reflexivity|]. simpl in Hn.
    destruct e as [u|u|u k|u|u]; simpl in Ha |- *;
      try (apply IH; [lia | exact Ha]).
    + destruct a as [|[v|v|v k|v|v] a]; try discriminate.
      simpl. apply andb_true_iff in Ha as [Huv Ha]. rewrite Huv. simpl.
      apply IH; [simpl in Hn; lia | exact Ha].
    + discriminate.
Qed.

Lemma spawns_paired_app a b :
  spawns_paired a = true -> spawns_paired (a ++ b) = spawns_paired b.
Proof. now apply (spawns_paired_app_le (length a)). Qed.

Lemma replay_app users a b :
  replay users (a ++ b)
  = match replay users a with
    | Some users' => replay users' b
    | None => None
    end.
Proof.
  revert users. induction a as [|e a IH]; intros users; [reflexivity|].
  destruct e as [u|u|u n|u|u]; simpl; auto.
  destruct (bool_decide (u ∈ users)); auto.
Qed.

Lemma log_step l s s' :
  spawns_paired (effects s) = true ->
  replay ∅ (effects s) = Some (processing_users s) ->
  step l s = Some s' ->
  spawns_paired (effects s') = true
  /\ replay ∅ (effects s') = Some (processing_users s').
Proof.
  intros Hp Hr Hstep.
  assert (Hcomplete : forall i u,
            spawns_paired (effects (complete i u s)) = true
            /\ replay ∅ (effects (complete i u s))
               = Some (processing_users (complete i u s))).
  { intros i u. unfold complete, finally_block. simpl.
    destruct (pending_of u (message_queue s) >? 0); simpl;
      rewrite <- ?app_assoc; simpl;
      rewrite spawns_paired_app, replay_app, Hr by exact Hp; simpl.
    - rewrite !bool_decide_eq_true_2 by reflexivity.
      rewrite bool_decide_eq_false_2; [auto|].
      intros Hin. apply elem_of_difference in Hin as [_ Hin].
      apply Hin. now apply elem_of_singleton.
    - auto. }
  destruct l as [u m|u|i|i c|i r|i|i|i]; simpl in Hstep.
  - inversion Hstep; subst. unfold handle_message. simpl.
    destruct (bool_decide (u ∉ processing_users s)) eqn:Eu; simpl;
      rewrite <- ?app_assoc; simpl;
      rewrite spawns_paired_app, replay_app, Hr by exact Hp; simpl; auto.
    apply bool_decide_eq_true in Eu.
    rewrite !bool_decide_eq_true_2 by reflexivity.
    now rewrite bool_decide_eq_false_2 by exact Eu.
  - inversion Hstep; subst. unfold handle_document.
    destruct (bool_decide (u ∉ processing_users s)) eqn:Eu; simpl; auto.
    rewrite <- ?app_assoc; simpl.
    rewrite spawns_paired_app, replay_app, Hr by exact Hp; simpl.
    apply bool_decide_eq_true in Eu.
    rewrite !bool_decide_eq_true_2 by reflexivity.
    now rewrite bool_decide_eq_false_2 by exact Eu.
  - destruct (tasks s !! i) as [[u []]|]; inversion Hstep; subst. auto.
  - destruct (tasks s !! i) as [[u []]|]; inversion Hstep; subst. auto.
  - destruct (tasks s !! i) as [[u []]|]; try discriminate.
    destruct (response_truthy r); inversion Hstep; subst; auto.
  - destruct (tasks s !! i) as [[u []]|]; inversion Hstep; subst. auto.
  - destruct (tasks s !! i) as [[u []]|]; inversion Hstep; subst. auto.
  - destruct (tasks s !! i) as [[u []]|]; inversion Hstep; subst. auto.
Qed.

(** X8. In the log of every reachable state [create_task] is called only
    directly after [processing_users.add] for the same user, every [add] is
    followed by its [create_task], no [add] ever meets a user who is already
    in the set, and the adds and discards of the log, replayed from the empty
    set, give [processing_users]. *)
Theorem spawn_discipline (q : list queued_message) (s : state) :
  reachable_from (initial q) s ->
  spawns_paired (effects s) = true
  /\ replay ∅ (effects s) = Some (processing_users s).
Proof.
  induction 1 as [|s l s' _ [IH1 IH2] Hstep].
  - split; reflexivity.
  - now apply log_step with l s.
Qed.

Lemma spawn_discipline_witness :
  exists s,
    run race_schedule (initial []) = Some s
    /\ spawns_paired (effects s) = true
    /\ replay ∅ (effects s) = Some (processing_users s).
Proof.
  destruct (run race_schedule (initial [])) as [s|] eqn:E;
    [|vm_compute in E; discriminate].
  exists s. split; [reflexivity|].
  apply (spawn_discipline [] s).
  apply (run_reachable race_schedule (initial []) s E). constructor.
Defined.

Lemma active_passes_other_insert w (ts : list (string * phase)) i owner p p' :
  ts !! i = Some (owner, p) -> w <> owner ->
  active_passes w (<[i := (owner, p')]> ts) = active_passes w ts.
Proof.
  intros Hi Hne.
  pose proof (active_passes_insert w ts i owner p p' Hi) as H.
  unfold counts_for in H.
  rewrite bool_decide_eq_false_2 in H by congruence. simpl in H. lia.
Qed.

Lemma filter_map_same {A} (g : A -> bool) (f : A -> A) (l : list A) :
  (forall a, g (f a) = g a) ->
  length (List.filter g (List.map f l)) = length (List.filter g l).
Proof.
  intros Hgf. induction l as [|a l IH]; simpl; [reflexivity|].
  rewrite Hgf. destruct (g a); simpl; now rewrite IH.
Qed.

Lemma pending_of_mark_other w owner claimed s :
  w <> owner ->
  pending_of w (message_queue (mark_processed owner claimed s))
  = pending_of w (message_queue s).
Proof.
  intros Hne. unfold pending_of, mark_processed. simpl. f_equal.
  apply filter_map_same. intros m.
  destruct (unprocessed_of owner m && claimed m) eqn:E; [|reflexivity].
  apply andb_true_iff in E as [E _]. unfold unprocessed_of in *.
  apply andb_true_iff in E as [E _]. apply bool_decide_eq_true in E.
  simpl. rewrite !bool_decide_eq_false_2 by congruence. reflexivity.
Qed.

Lemma complete_other w i owner p s :
  tasks s !! i = Some (owner, p) -> w <> owner ->
  ((w ∈ processing_users (complete i owner s)) <-> (w ∈ processing_users s))
  /\ active_passes w (tasks (complete i owner s)) = active_passes w (tasks s)
  /\ pending_of w (message_queue (complete i owner s))
     = pending_of w (message_queue s).
Proof.
  intros Hi Hne. unfold complete, finally_block. simpl.
  destruct (pending_of owner (message_queue s) >? 0); simpl.
  - repeat split.
    + rewrite elem_of_union, elem_of_difference, elem_of_singleton. tauto.
    + rewrite elem_of_union, elem_of_difference, elem_of_singleton. tauto.
    + rewrite (active_passes_other_insert w _ i owner p Done); auto.
      * rewrite active_passes_app. simpl.
        rewrite bool_decide_eq_false_2 by congruence. simpl. lia.
      * rewrite lookup_app_l; [exact Hi | now apply lookup_lt_Some in Hi].
  - repeat split.
    + rewrite elem_of_difference, elem_of_singleton. tauto.
    + rewrite elem_of_difference, elem_of_singleton. tauto.
    + now rewrite (active_passes_other_insert w _ i owner p Done).
Qed.

Lemma spawn_other w u s :
  w <> u ->
  ((w ∈ processing_users (create_task u (add u s))) <-> (w ∈ processing_users s))
  /\ active_passes w (tasks (create_task u (add u s)))
     = active_passes w (tasks s).
Proof.
  intros Hne. simpl. split.
  - rewrite elem_of_union, elem_of_singleton. tauto.
  - rewrite active_passes_app. simpl.
    rewrite bool_decide_eq_false_2 by congruence. simpl. lia.
Qed.

(** X9. What the event loop runs for one user leaves every other user as
    they were: their membership in [processing_users], their number of
    unfinished passes and their number of unprocessed messages do not
    change, whether the step is a handler or the end of a pass, normal or by
    exception. *)
Theorem step_isolated (l : label) (s s' : state) (user_id w : string) :
  step l s = Some s' -> label_user l s = Some user_id -> w <> user_id ->
  ((w ∈ processing_users s') <-> (w ∈ processing_users s))
  /\ active_passes w (tasks s') = active_passes w (tasks s)
  /\ pending_of w (message_queue s') = pending_of w (message_queue s).
Proof.
  intros Hstep Hu Hne.
  destruct l as [u m|u|i|i c|i r|i|i|i]; simpl in Hstep, Hu.
  - inversion Hstep; inversion Hu; subst. unfold handle_message.
    assert (Hq : pending_of w (message_queue (add_message user_id m s))
                 = pending_of w (message_queue s)).
    { simpl. rewrite pending_of_app. unfold unprocessed_of. simpl.
      rewrite bool_decide_eq_false_2 by congruence. simpl. lia. }
    destruct (bool_decide (user_id ∉ processing_users (add_message user_id m s))).
    + destruct (spawn_other w user_id (add_message user_id m s) Hne)
        as [H1 H2]. repeat split; try apply H1; auto.
    + repeat split; auto.
  - inversion Hstep; inversion Hu; subst. unfold handle_document.
    destruct (bool_decide (user_id ∉ processing_users s)).
    + destruct (spawn_other w user_id s Hne) as [H1 H2].
      repeat split; try apply H1; auto.
    + repeat split; auto.
  - destruct (tasks s !! i) as [[u p]|] eqn:E; [|discriminate].
    inversion Hu; subst u. destruct p; inversion Hstep; subst. simpl.
    rewrite (active_passes_other_insert w _ i user_id Created) by auto.
    repeat split; auto.
  - destruct (tasks s !! i) as [[u p]|] eqn:E; [|discriminate].
    inversion Hu; subst u. destruct p; inversion Hstep; subst.
    rewrite pending_of_mark_other by exact Hne. repeat split; auto.
  - destruct (tasks s !! i) as [[u p]|] eqn:E; [|discriminate].
    inversion Hu; subst u. destruct p; try discriminate.
    destruct (response_truthy r); inversion Hstep; subst.
    + simpl.
      rewrite (active_passes_other_insert w _ i user_id Processing) by auto.
      repeat split; auto.
    + now apply complete_other with Processing.
  - destruct (tasks s !! i) as [[u p]|] eqn:E; [|discriminate].
    inversion Hu; subst u. destruct p; inversion Hstep; subst.
    now apply complete_other with Processing.
  - destruct (tasks s !! i) as [[u p]|] eqn:E; [|discriminate].
    inversion Hu; subst u. destruct p; inversion Hstep; subst.
    now apply complete_other with Sending.
  - destruct (tasks s !! i) as [[u p]|] eqn:E; [|discriminate].
    inversion Hu; subst u. destruct p; inversion Hstep; subst.
    now apply complete_other with Sending.
Qed.

Lemma step_isolated_witness :
  let s := handle_message "8" (lit "x") (handle_message "7" (lit "A") (initial [])) in
  let s' := set_phase 0 "7" Processing s in
  ((("8"%string) ∈ processing_users s') <-> (("8"%string) ∈ processing_users s))
  /\ active_passes "8" (tasks s') = active_passes "8" (tasks s)
  /\ pending_of "8" (message_queue s') = pending_of "8" (message_queue s).
Proof.
  intros s s'.
  apply (step_isolated (Start 0) s s' "7" "8"); try reflexivity. discriminate.
Defined.

Lemma same_message_refl m : same_message m m.
Proof. repeat split; auto. Qed.

Lemma same_message_trans a b c :
  same_message a b -> same_message b c -> same_message a c.
Proof.
  intros (H1 & H2 & H3) (H4 & H5 & H6). repeat split; try congruence. auto.
Qed.

Lemma queue_kept_complete i u s : 
  message_queue (complete i u s) = message_queue s.
Proof.
  unfold complete, finally_block. simpl.
  now destruct (pending_of u (message_queue s) >? 0).
Qed.

Lemma queue_kept_step l s s' :
  step l s = Some s' ->
  forall k m, message_queue s !! k = Some m ->
  exists m', message_queue s' !! k = Some m' /\ same_message m m'.
Proof.
  intros Hstep k m Hk.
  assert (Hsame : message_queue s' = message_queue s ->
            exists m', message_queue s' !! k = Some m' /\ same_message m m').
  { intros ->. exists m. split; [exact Hk | apply same_message_refl]. }
  destruct l as [u t|u|i|i c|i r|i|i|i]; simpl in Hstep.
  - inversion Hstep; subst. exists m. split; [|apply same_message_refl].
    unfold handle_message.
    destruct (bool_decide (u ∉ processing_users (add_message u t s))); simpl;
      (rewrite lookup_app_l; [exact Hk | now apply lookup_lt_Some in Hk]).
  - inversion Hstep; subst. apply Hsame. unfold handle_document.
    now destruct (bool_decide (u ∉ processing_users s)).
  - destruct (tasks s !! i) as [[u []]|]; inversion Hstep; subst. now apply Hsame.
  - destruct (tasks s !! i) as [[u []]|]; inversion Hstep; subst.
    simpl. rewrite lookup_map, Hk. simpl. eexists. split; [reflexivity|].
    destruct (unprocessed_of u m && c m); repeat split; auto.
  - destruct (tasks s !! i) as [[u []]|]; try discriminate.
    destruct (response_truthy r); inversion Hstep; subst;
      [now apply Hsame | apply Hsame, queue_kept_complete].
  - destruct (tasks s !! i) as [[u []]|]; inversion Hstep; subst.
    apply Hsame, queue_kept_complete.
  - destruct (tasks s !! i) as [[u []]|]; inversion Hstep; subst.
    apply Hsame, queue_kept_complete.
  - destruct (tasks s !! i) as [[u []]|]; inversion Hstep; subst.
    apply Hsame, queue_kept_complete.
Qed.

(** X10. The scheduler never deletes, moves or rewrites a queued message:
    a message that is in the queue stays at its place with its user and its
    text, and once processed it stays processed.  [handle_message] only
    appends, and the completion of a pass does not touch the queue. *)
Theorem queue_append_only (s0 s : state) :
  reachable_from s0 s ->
  forall k m, message_queue s0 !! k = Some m ->
  exists m', message_queue s !! k = Some m' /\ same_message m m'.
Proof.
  induction 1 as [|s l s' _ IH Hstep]; intros k m Hk.
  - exists m. split; [exact Hk | apply same_message_refl].
  - destruct (IH k m Hk) as [m1 [H1 S1]].
    destruct (queue_kept_step l s s' Hstep k m1 H1) as [m2 [H2 S2]].
    exists m2. split; [exact H2 | now apply same_message_trans with m1].
Qed.

Lemma queue_append_only_witness :
  exists s m',
    run race_schedule (handle_message "7" (lit "old") (initial [])) = Some s
    /\ message_queue s !! O = Some m' /\ qm_text m' = lit "old".
Proof.
  destruct (run race_schedule (handle_message "7" (lit "old") (initial [])))
    as [s|] eqn:E; [|vm_compute in E; discriminate].
  destruct (queue_append_only (handle_message "7" (lit "old") (initial [])) s)
    with (k := O)
         (m := {| qm_user_id := "7"%string; qm_text := lit "old";
                  qm_is_processed := false |})
    as [m' [Hm' (_ & Ht & _)]].
  - apply (run_reachable race_schedule _ s E). constructor.
  - reflexivity.
  - exists s, m'. repeat split; auto.
Defined.

Lemma failed_pass_respawns s i user_id :
  length (tasks s) = S i -> tasks s !! i = Some (user_id, Created) ->
  0 < pending_of user_id (message_queue s) ->
  exists s',
    run [Start i; ProcessRaised i] s = Some s'
    /\ length (tasks s') = S (S i)
    /\ tasks s' !! S i = Some (user_id, Created)
    /\ tasks s' !! i = Some (user_id, Done)
    /\ message_queue s' = message_queue s
    /\ (user_id ∈ processing_users s').
Proof.
  intros Hlen Hi Hpos. simpl. rewrite Hi. simpl.
  rewrite list_lookup_insert_eq by lia.
  eexists. split; [reflexivity|].
  unfold complete, finally_block. simpl.
  destruct (pending_of user_id (message_queue s) >? 0) eqn:E; [|lia]. simpl.
  rewrite !length_insert, length_app, length_insert. simpl.
  repeat split.
  - lia.
  - rewrite list_lookup_insert_ne by lia.
    rewrite lookup_app_r by (rewrite length_insert; lia).
    rewrite length_insert, Hlen, Nat.sub_diag. reflexivity.
  - rewrite list_lookup_insert_eq; [reflexivity|].
    rewrite length_app, length_insert. lia.
  - apply elem_of_union_l. now apply elem_of_singleton.
Qed.

Lemma run_app a b s :
  run (a ++ b) s
  = match run a s with
    | Some s' => run b s'
    | None => None
    end.
Proof.
  revert s. induction a as [|l a IH]; intros s; [reflexivity|].
  simpl. destruct (step l s); auto.
Qed.

(** X11. A pass that ends by an exception of the Batch Processor while
    unprocessed messages of the user remain creates its successor at once,
    so for every [n] there is a run of [n] failing passes in a row without
    any inbound message between them: nothing bounds or delays the
    retries. *)
Theorem failing_passes_chain (n : nat) :
  forall (s : state) (i : nat) (user_id : string),
  length (tasks s) = S i -> tasks s !! i = Some (user_id, Created) ->
  0 < pending_of user_id (message_queue s) ->
  exists s',
    run (retry_schedule i n) s = Some s'
    /\ length (tasks s') = (S i + n)%nat
    /\ tasks s' !! (i + n)%nat = Some (user_id, Created)
    /\ message_queue s' = message_queue s.
Proof.
  induction n as [|n IH]; intros s i u Hlen Hi Hpos.
  - exists s. simpl. rewrite !Nat.add_0_r. auto.
  - destruct (failed_pass_respawns s i u Hlen Hi Hpos)
      as [s1 (R1 & L1 & T1 & _ & Q1 & _)].
    destruct (IH s1 (S i) u L1 T1) as [s2 (R2 & L2 & T2 & Q2)];
      [now rewrite Q1|].
    exists s2. repeat split.
    + change (retry_schedule i (S n))
        with ([Start i; ProcessRaised i] ++ retry_schedule (S i) n).
      now rewrite run_app, R1.
    + rewrite L2. lia.
    + rewrite <- T2. f_equal. lia.
    + congruence.
Qed.

Lemma failing_passes_chain_witness :
  exists s',
    run (retry_schedule 0 5) (handle_message "7" (lit "A") (initial []))
    = Some s'
    /\ length (tasks s') = 6%nat
    /\ tasks s' !! 5%nat = Some ("7"%string, Created).
Proof.
  destruct (failing_passes_chain 5
              (handle_message "7" (lit "A") (initial [])) 0 "7")
    as [s' (R & L & Tk & _)]; try reflexivity.
  exists s'. auto.
Defined.

Lemma pending_of_mark_all user_id s :
  pending_of user_id
    (message_queue (mark_processed user_id (fun _ => true) s)) = 0.
Proof.
  unfold pending_of, mark_processed. simpl.
  induction (message_queue s) as [|m q IH]; [reflexivity|]. simpl.
  rewrite andb_true_r.
  destruct (unprocessed_of user_id m) eqn:E.
  - unfold unprocessed_of at 1. simpl. rewrite andb_false_r. exact IH.
  - rewrite E. exact IH.
Qed.

(** X12. A pass during which the Batch Processor claims every unprocessed
    message of the user and no message arrives ends without a successor:
    afterwards the user has no unprocessed message, is out of
    [processing_users], and no task has been created, whether the reply was
    empty or was sent. *)
Theorem full_pass_ends_idle (s : state) (i : nat) (user_id : string)
  (response : option str) :
  tasks s !! i = Some (user_id, Created) ->
  exists s',
    run (full_pass i response) s = Some s'
    /\ pending_of user_id (message_queue s') = 0
    /\ (user_id ∉ processing_users s')
    /\ tasks s' = <[i := (user_id, Done)]> (tasks s).
Proof.
  intros Hi. pose proof (lookup_lt_Some _ _ _ Hi) as Hlt.
  pose proof (pending_of_mark_all user_id (set_phase i user_id Processing s))
    as Hzero.
  assert (Hend : forall s1,
            message_queue s1
            = message_queue (mark_processed user_id (fun _ => true)
                               (set_phase i user_id Processing s)) ->
            pending_of user_id (message_queue (complete i user_id s1)) = 0
            /\ (user_id ∉ processing_users (complete i user_id s1))
            /\ tasks (complete i user_id s1)
               = <[i := (user_id, Done)]> (tasks s1)).
  { intros s1 Hq. unfold complete, finally_block. simpl. rewrite Hq, Hzero.
    simpl. repeat split; auto.
    rewrite elem_of_difference, elem_of_singleton. tauto. }
  unfold full_pass. simpl. rewrite Hi. simpl.
  rewrite list_lookup_insert_eq by exact Hlt. simpl.
  rewrite list_lookup_insert_eq by exact Hlt.
  destruct (response_truthy response); simpl.
  - rewrite list_lookup_insert_eq by (rewrite length_insert; exact Hlt).
    eexists. split; [reflexivity|].
    edestruct Hend as (H1 & H2 & H3); [|repeat split; [exact H1|exact H2|]].
    + reflexivity.
    + rewrite H3. simpl. now rewrite !list_insert_insert_eq.
  - eexists. split; [reflexivity|].
    edestruct Hend as (H1 & H2 & H3); [|repeat split; [exact H1|exact H2|]].
    + reflexivity.
    + rewrite H3. simpl. now rewrite !list_insert_insert_eq.
Qed.

Lemma full_pass_ends_idle_witness :
  exists s',
    run (full_pass 0 (Some (lit "hi")))
      (handle_message "7" (lit "A") (initial [])) = Some s'
    /\ pending_of "7" (message_queue s') = 0
    /\ tasks s' = [("7"%string, Done)].
Proof.
  destruct (full_pass_ends_idle (handle_message "7" (lit "A") (initial []))
              0 "7" (Some (lit "hi"))) as [s' (R & P & _ & Tk)];
    [reflexivity|].
  exists s'. repeat split; auto.
Defined.

(** * Properties of the upload handler and of the listing *)

Section UploadHandler.

Import Documents.

Variable download : gset (list N) -> str -> option exn * gset (list N).
Variable process_document :
  str -> string -> gset (list N) -> processed * gset (list N).
Variable reply_text : list str -> str -> option exn.

(** Unfolds the handler down to the calls of its collaborators. *)
Ltac open_handler :=
  unfold Documents.handle_document, mbind, M_bind, bind, try_finally,
    try_except, do_download, do_process, do_reply, do_schedule, do_cleanup;
  simpl.

Lemma removed_absent (x : list N) (fs : gset (list N)) : x ∉ fs ∖ {[x]}.
Proof.
  rewrite elem_of_difference, elem_of_singleton. tauto.
Qed.

Lemma absent_difference (x : list N) (fs : gset (list N)) :
  x ∉ fs -> fs = fs ∖ {[x]}.
Proof.
  intros E. apply set_eq. intros y.
  rewrite elem_of_difference, elem_of_singleton. split; [|tauto].
  intros Hy. split; [exact Hy | congruence].
Qed.

(** X13. Once the download has succeeded, the downloaded file is gone when
    [handle_document] ends, whatever [process_document] and the replies do:
    on success, on the already-uploaded answer, on an exception, and when
    the error reply itself raises. *)
Theorem upload_file_removed (user_id : string) (file_name : option str)
  (w : world) :
  fst (download (files w) (upload_path user_id file_name)) = None ->
  upload_path user_id file_name
    ∉ files (snd (Documents.handle_document download process_document
                    reply_text user_id file_name w)).
Proof.
  open_handler. intros Hd.
  destruct (download (files w) (upload_path user_id file_name))
    as [[e|] fs] eqn:Ed; simpl in *; [discriminate|].
  destruct (process_document (upload_path user_id file_name) user_id fs)
    as [[e|[status|]] fs2]; simpl;
    repeat match goal with
      | |- context [reply_text ?a ?b] => destruct (reply_text a b); simpl
      | |- context [bool_decide (?a = lit "exists")] =>
          destruct (bool_decide (a = lit "exists")); simpl
      end;
    match goal with
    | |- context [bool_decide (?x ∈ ?fs)] =>
        destruct (bool_decide (x ∈ fs)) eqn:Eb; simpl;
        [apply removed_absent | now apply bool_decide_eq_false in Eb]
    end.
Qed.


(** What the handler leaves when its [try] has raised [e]: one attempt to
    send the error text, no pass, the file removed; an exception of that
    reply leaves the handler. *)
Lemma error_outcome (file_path : str) (e : exn) (w : world)
  (fs2 : gset (list N)) :
  (let '(r, w2) :=
     match reply_text (replies w) (error_text e) with
     | Some e2 =>
         (inl e2, {| files := fs2; replies := replies w; sched := sched w |})
     | None =>
         (inr tt, {| files := fs2; replies := replies w ++ [error_text e];
                     sched := sched w |})
     end in
   match do_cleanup file_path w2 with
   | (inl e3, w3) => (inl e3, w3)
   | (inr _, w3) => (r, w3)
   end)
  = match reply_text (replies w) (error_text e) with
    | None =>
        (inr tt, {| files := fs2 ∖ {[file_path]};
                    replies := replies w ++ [error_text e];
                    sched := sched w |})
    | Some e2 =>
        (inl e2, {| files := fs2 ∖ {[file_path]}; replies := replies w;
                    sched := sched w |})
    end.
Proof.
  unfold do_cleanup.
  destruct (reply_text (replies w) (error_text e)); simpl;
    destruct (bool_decide (file_path ∈ fs2)) eqn:E; try reflexivity;
    apply bool_decide_eq_false in E; do 2 f_equal;
    now apply absent_difference.
Qed.

(** X15. When [process_document] raises, or returns a result without a
    ["status"] entry (a [KeyError]), [handle_document] tries once to reply
    ["Error processing document: ..."] with the text of the exception,
    schedules no pass and removes the file; it returns normally when that
    reply is sent, and the exception of that reply leaves it otherwise. *)
Theorem processing_error_reported (user_id : string)
  (file_name : option str) (w : world) (fs fs2 : gset (list N))
  (p : processed) (e : exn) :
  let file_path := upload_path user_id file_name in
  download (files w) file_path = (None, fs) ->
  process_document file_path user_id fs = (p, fs2) ->
  raised_by p = Some e ->
  Documents.handle_document download process_document reply_text
    user_id file_name w
  = match reply_text (replies w) (error_text e) with
    | None =>
        (inr tt, {| files := fs2 ∖ {[file_path]};
                    replies := replies w ++ [error_text e];
                    sched := sched w |})
    | Some e2 =>
        (inl e2, {| files := fs2 ∖ {[file_path]}; replies := replies w;
                    sched := sched w |})
    end.
Proof.
  intros file_path Hd Hp He. open_handler. fold file_path.
  rewrite Hd. simpl. rewrite Hp. simpl.
  rewrite <- (error_outcome file_path e w fs2).
  destruct p as [e0|[status|]]; simpl in He; inversion He; subst;
    simpl; now destruct (reply_text (replies w) (error_text _)).
Qed.

(** X16. When the reply that announces the outcome (the success text or the
    already-uploaded text) raises, the handler treats it like a failure of
    the processing: it tries to reply ["Error processing document: ..."]
    with the text of that exception and schedules no pass, although
    [process_document] had returned. *)
Theorem reply_failure_reported (user_id : string) (file_name : option str)
  (w : world) (fs fs2 : gset (list N)) (status : str) (e : exn) :
  let file_path := upload_path user_id file_name in
  download (files w) file_path = (None, fs) ->
  process_document file_path user_id fs = (Returns (Some status), fs2) ->
  reply_text (replies w)
    (if bool_decide (status = lit "exists") then already_text
     else success_text) = Some e ->
  Documents.handle_document download process_document reply_text
    user_id file_name w
  = match reply_text (replies w) (error_text e) with
    | None =>
        (inr tt, {| files := fs2 ∖ {[file_path]};
                    replies := replies w ++ [error_text e];
                    sched := sched w |})
    | Some e2 =>
        (inl e2, {| files := fs2 ∖ {[file_path]}; replies := replies w;
                    sched := sched w |})
    end.
Proof.
  intros file_path Hd Hp Hr. open_handler. fold file_path.
  rewrite Hd. simpl. rewrite Hp. simpl.
  rewrite <- (error_outcome file_path e w fs2).
  destruct (bool_decide (status = lit "exists")); simpl; rewrite Hr; simpl;
    now destruct (reply_text (replies w) (error_text e)).
Qed.

(** X17. The download sits before the [try]: when it raises, the exception
    leaves the handler at once, no reply is sent, no pass is scheduled, and
    the files stay as the download left them, without cleanup. *)
Theorem download_failure_propagates (user_id : string)
  (file_name : option str) (w : world) (fs : gset (list N)) (e : exn) :
  download (files w) (upload_path user_id file_name) = (Some e, fs) ->
  Documents.handle_document download process_document reply_text
    user_id file_name w
  = (inl e, {| files := fs; replies := replies w; sched := sched w |}).
Proof.
  intros Hd. open_handler. now rewrite Hd.
Qed.

End UploadHandler.

Lemma upload_file_removed_witness :
  Documents.upload_path "7" (Some (lit "a.pdf"))
    ∉ Documents.files
        (snd (Documents.handle_document Documents.sample_download
                Documents.sample_fail Documents.sample_chat
                "7" (Some (lit "a.pdf")) Documents.empty_world)).
Proof.
  apply (upload_file_removed Documents.sample_download Documents.sample_fail
           Documents.sample_chat "7" (Some (lit "a.pdf"))
           Documents.empty_world).
  reflexivity.
Defined.


Lemma processing_error_reported_witness :
  Documents.replies
    (snd (Documents.handle_document Documents.sample_download
            Documents.sample_fail Documents.sample_chat
            "7" None Documents.empty_world))
  = [lit "Error processing document: unsupported file type"].
Proof.
  rewrite (processing_error_reported Documents.sample_download
             Documents.sample_fail Documents.sample_chat "7" None
             Documents.empty_world _ _ _
             (OtherException (lit "unsupported file type"))
             eq_refl eq_refl eq_refl).
  reflexivity.
Defined.

Lemma reply_failure_reported_witness :
  let out := Documents.handle_document Documents.sample_download
               Documents.sample_accept Documents.sample_chat_down
               "7" (Some (lit "a.pdf")) Documents.empty_world in
  Documents.replies (snd out) = [lit "Error processing document: Timed out"]
  /\ Documents.sched (snd out) = initial [].
Proof.
  intros out. unfold out.
  rewrite (reply_failure_reported Documents.sample_download
             Documents.sample_accept Documents.sample_chat_down
             "7" (Some (lit "a.pdf")) Documents.empty_world _ _
             (lit "processed") (OtherException (lit "Timed out"))
             eq_refl eq_refl eq_refl).
  split; reflexivity.
Defined.

Lemma download_failure_propagates_witness :
  let down := fun (fs : gset (list N)) (p : str) =>
                (Some (OtherException (lit "Timed out")), fs) in
  Documents.handle_document down Documents.sample_accept
    Documents.sample_chat "7" None Documents.empty_world
  = (inl (OtherException (lit "Timed out")), Documents.empty_world).
Proof.
  intros down.
  apply (download_failure_propagates down Documents.sample_accept
           Documents.sample_chat "7" None Documents.empty_world).
  reflexivity.
Defined.

(** ** File names *)

Lemma contains_slash_cons c r :
  contains [Documents.slash] (c :: r)
  = N.eqb Documents.slash c || contains [Documents.slash] r.
Proof. simpl. now rewrite andb_true_r. Qed.

Lemma contains_app_r (needle a b : str) :
  contains needle b = true -> contains needle (a ++ b) = true.
Proof.
  intros Hb. induction a as [|c a IH]; [exact Hb|].
  change ((c :: a) ++ b) with (c :: (a ++ b)).
  cbn [contains]. rewrite IH. apply orb_true_r.
Qed.

Lemma basename_cons c r :
  Documents.basename (c :: r)
  = if contains [Documents.slash] r then Documents.basename r
    else if N.eqb c Documents.slash then r else c :: r.
Proof. reflexivity. Qed.

(** X18. [os.path.basename] cuts a path after its last slash: the path is
    a directory part followed by the base name, the base name contains no
    slash, and the directory part is empty or ends with a slash. *)
Theorem basename_is_last_component (p : str) :
  exists dir,
    p = dir ++ Documents.basename p
    /\ contains [Documents.slash] (Documents.basename p) = false
    /\ (dir = [] \/ List.last dir 0%N = Documents.slash).
Proof.
  induction p as [|c r [dir (H1 & H2 & H3)]].
  - exists []. repeat split; auto.
  - rewrite basename_cons.
    destruct (contains [Documents.slash] r) eqn:Er.
    + exists (c :: dir). repeat split; auto.
      * simpl. now f_equal.
      * right. destruct H3 as [->|H3].
        -- simpl in H1. rewrite <- H1 in H2. congruence.
        -- destruct dir; [simpl in H3; discriminate | exact H3].
    + destruct (N.eqb_spec c Documents.slash) as [->|Hne].
      * exists [Documents.slash]. repeat split; auto.
      * exists []. repeat split; auto.
        rewrite contains_slash_cons, Er, orb_false_r.
        apply N.eqb_neq. congruence.
Qed.

Lemma basename_app (a b : str) :
  contains [Documents.slash] b = true ->
  Documents.basename (a ++ b) = Documents.basename b.
Proof.
  intros Hb. induction a as [|c a IH]; [reflexivity|].
  change ((c :: a) ++ b) with (c :: (a ++ b)).
  now rewrite basename_cons, (contains_app_r _ a b Hb).
Qed.

Lemma basename_after_slash (a b : str) :
  contains [Documents.slash] b = false ->
  Documents.basename (a ++ [Documents.slash] ++ b) = b.
Proof.
  intros Hb. induction a as [|c a IH].
  - simpl. rewrite Hb. reflexivity.
  - change ((c :: a) ++ [Documents.slash] ++ b)
      with (c :: (a ++ [Documents.slash] ++ b)).
    rewrite basename_cons, contains_app_r; [exact IH|].
    simpl. reflexivity.
Qed.

Lemma starts_with_slash_contains (s : str) :
  starts_with [Documents.slash] s = true ->
  contains [Documents.slash] s = true.
Proof. destruct s; simpl; intros H; [discriminate | now rewrite H]. Qed.

Lemma stored_name_no_leading_slash user_id file_name :
  contains [Documents.slash] (lit user_id) = false ->
  starts_with [Documents.slash] (Documents.stored_name user_id file_name)
  = false.
Proof.
  intros Hu. unfold Documents.stored_name.
  destruct (lit user_id) as [|c r] eqn:E; [reflexivity|].
  rewrite contains_slash_cons in Hu. apply orb_false_iff in Hu as [Hc _].
  cbn [app starts_with]. now rewrite Hc.
Qed.

(** X19. The name under which [list_documents] shows a file stored by
    [handle_document], for a user id without slash: the stored name
    ["<user_id>_<file_name>"] when the file name has no slash, and only what
    follows the last slash of the file name when it has one. *)
Theorem listed_name_of_upload (user_id : string) (file_name : option str) :
  contains [Documents.slash] (lit user_id) = false ->
  let name := match file_name with Some n => n | None => lit "None" end in
  Documents.basename (Documents.upload_path user_id file_name)
  = if contains [Documents.slash] name then Documents.basename name
    else Documents.stored_name user_id file_name.
Proof.
  intros Hu name. unfold Documents.upload_path, Documents.path_join.
  rewrite (stored_name_no_leading_slash user_id file_name Hu).
  change (negb (truthy Documents.DOCUMENT_UPLOAD_PATH)
          || N.eqb (List.last Documents.DOCUMENT_UPLOAD_PATH 0%N)
               Documents.slash) with false.
  cbv iota. destruct (contains [Documents.slash] name) eqn:En.
  - unfold Documents.stored_name. fold name.
    rewrite !app_assoc. now apply basename_app.
  - apply basename_after_slash.
    change (contains [Documents.slash] (lit user_id ++ lit "_" ++ name)
            = false).
    clearbody name. clear file_name. induction (lit user_id) as [|c r IH].
    + simpl. rewrite En. reflexivity.
    + rewrite contains_slash_cons in Hu. apply orb_false_iff in Hu as [Hc Hr].
      change ((c :: r) ++ lit "_" ++ name) with (c :: (r ++ lit "_" ++ name)).
      rewrite contains_slash_cons, Hc. now apply IH.
Qed.

Lemma listed_name_of_upload_witness :
  Documents.basename (Documents.upload_path "7" (Some (lit "d/report.pdf")))
  = lit "report.pdf"
  /\ Documents.basename (Documents.upload_path "7" (Some (lit "report.pdf")))
     = lit "7_report.pdf".
Proof.
  split.
  - rewrite (listed_name_of_upload "7" (Some (lit "d/report.pdf")));
      reflexivity.
  - rewrite (listed_name_of_upload "7" (Some (lit "report.pdf")));
      reflexivity.
Defined.

Example list_documents_ex :
  Documents.list_documents [] = lit "You haven't uploaded any documents yet."
  /\ Documents.list_documents
       [{| Documents.doc_file_path := lit "uploads/7_a.pdf";
           Documents.doc_status := lit "processed";
           Documents.doc_upload_time := lit "2025-01-02 03:04" |};
        {| Documents.doc_file_path := lit "uploads/7_b.pdf";
           Documents.doc_status := lit "failed";
           Documents.doc_upload_time := lit "2025-01-02 03:05" |}]
     = lit "Your uploaded documents:" ++ [newline; newline]
         ++ Documents.check_mark ++ lit " 7_a.pdf - 2025-01-02 03:04"
         ++ [newline]
         ++ Documents.cross_mark ++ lit " 7_b.pdf - 2025-01-02 03:05"
         ++ [newline].
Proof. split; reflexivity. Qed.
